(** * Red-Lavalink, [lavalink/node.py]: session lifecycle and node selection

    A shallow embedding of [Node] (connect / send / disconnect / listener
    exit / reconnect) and of the module-level registry [_nodes] with
    [get_node], followed by the properties the specification states about
    them.

    Conventions.
    - A [Node] object is a record of its mutable fields; objects live in a
      store keyed by object identity ([node_id]), because [_nodes] and
      [get_node] refer to nodes by identity and read their [ready] flag.
    - [_nodes] is a Python [dict]: insertion ordered, keys unique.  It is an
      association list in insertion order; the order decides ties in
      [get_node].
    - Everything the code awaits on (the outcome and duration of each
      [websockets.connect] call, whether the socket is still open when a
      queued frame is flushed) is an explicit environment argument. *)

From stdpp Require Import base list gmap strings.
From Stdlib Require Import ZArith.

(** ** Python values used by the module *)

Module Py.

(** The two exception classes that leave the module's functions. *)
Inductive exn :=
| IndexError (msg : string)
| TimeoutError.

Inductive result (A : Type) :=
| Ok (a : A)
| Raise (e : exn).
Arguments Ok {A} a.
Arguments Raise {A} e.

Global Instance exn_eq_dec : EqDecision exn.
Proof. solve_decision. Defined.

Section dict.
Context {K V : Type} `{EqDecision K}.

(** [d[k] = v]: an existing key keeps its position, a new key goes last. *)
Fixpoint dict_set (k : K) (v : V) (d : list (K * V)) : list (K * V) :=
  match d with
  | [] => [(k, v)]
  | (k', v') :: d' =>
      if decide (k' = k) then (k, v) :: d' else (k', v') :: dict_set k v d'
  end.

(** [d.pop(k, None)], keeping only the resulting dict. *)
Fixpoint dict_pop (k : K) (d : list (K * V)) : list (K * V) :=
  match d with
  | [] => []
  | (k', v') :: d' =>
      if decide (k' = k) then d' else (k', v') :: dict_pop k d'
  end.

(** [d[k]], [None] standing for [KeyError]. *)
Fixpoint dict_get (k : K) (d : list (K * V)) : option V :=
  match d with
  | [] => None
  | (k', v') :: d' => if decide (k' = k) then Some v' else dict_get k d'
  end.

(** In-place mutation of the value stored under [k]. *)
Fixpoint dict_alter (f : V → V) (k : K) (d : list (K * V)) : list (K * V) :=
  match d with
  | [] => []
  | (k', v') :: d' =>
      if decide (k' = k) then (k', f v') :: d' else (k', v') :: dict_alter f k d'
  end.

Definition keys (d : list (K * V)) : list K := d.*1.

End dict.

End Py.
Export Py.

(** ** Data model *)

Definition node_id := nat.

(** The two candidate endpoints of [Node.connect]. *)
Inductive uri := combo_uri | dedicated_uri.

(** Outbound frames, one constructor per [LavalinkOutgoingOp] as built by the
    command methods of [Node]. *)
Inductive frame :=
| VOICE_UPDATE (guild_id : Z) (session_id : string) (event : string)
| DESTROY (guild_id : Z)
| PLAY (guild_id : Z) (track : string)
| STOP (guild_id : Z)
| PAUSE (guild_id : Z) (paused : bool)
| SEEK (guild_id : Z) (position : Z)
| VOLUME (guild_id : Z) (volume : Z).

Global Instance uri_eq_dec : EqDecision uri.
Proof. solve_decision. Defined.
Global Instance frame_eq_dec : EqDecision frame.
Proof. solve_decision. Defined.

(** A websocket as far as [Node] looks at it: where it leads and [ws.open]. *)
Record Ws := { peer : uri; open : bool }.

(** A unit of work held in [Node._players]. *)
Record Player := { guild : Z }.

(** The fields of a [Node] object.  [_listener_task] counts the listener
    tasks created so far (the field holds the latest).  [wire] is a ghost
    field: the frames handed to [self._ws.send], oldest first. *)
Record Node := {
  _is_shutdown : bool;
  ready : bool;
  _ws : option Ws;
  _listener_task : nat;
  _queue : list frame;
  _players : list Player;
  wire : list frame
}.

Global Instance Ws_eq_dec : EqDecision Ws.
Proof. solve_decision. Defined.
Global Instance Player_eq_dec : EqDecision Player.
Proof. solve_decision. Defined.
Global Instance Node_eq_dec : EqDecision Node.
Proof. solve_decision. Defined.

(** The registry [_nodes : Dict[Node, List[int]]]. *)
Abbreviation registry := (list (node_id * list Z)).

(** The process state: the node objects and the registry. *)
Record World := {
  objects : gmap node_id Node;
  _nodes : registry
}.

(** [node.ready.is_set()] for the object with identity [i]. *)
Definition is_set (objs : gmap node_id Node) (i : node_id) : bool :=
  match objs !! i with
  | Some n => ready n
  | None => false
  end.

(** ** [Node]: send, connect, listener exit, reconnect, disconnect *)

Module Session.

(** Field updates of a [Node] object. *)
Definition set_is_shutdown (b : bool) (n : Node) : Node :=
  {| _is_shutdown := b; ready := ready n; _ws := _ws n;
     _listener_task := _listener_task n; _queue := _queue n;
     _players := _players n; wire := wire n |}.

Definition set_ready (b : bool) (n : Node) : Node :=
  {| _is_shutdown := _is_shutdown n; ready := b; _ws := _ws n;
     _listener_task := _listener_task n; _queue := _queue n;
     _players := _players n; wire := wire n |}.

Definition set_ws (o : option Ws) (n : Node) : Node :=
  {| _is_shutdown := _is_shutdown n; ready := ready n; _ws := o;
     _listener_task := _listener_task n; _queue := _queue n;
     _players := _players n; wire := wire n |}.

Definition set_listener_task (t : nat) (n : Node) : Node :=
  {| _is_shutdown := _is_shutdown n; ready := ready n; _ws := _ws n;
     _listener_task := t; _queue := _queue n;
     _players := _players n; wire := wire n |}.

Definition set_queue (q : list frame) (n : Node) : Node :=
  {| _is_shutdown := _is_shutdown n; ready := ready n; _ws := _ws n;
     _listener_task := _listener_task n; _queue := q;
     _players := _players n; wire := wire n |}.

Definition set_players (ps : list Player) (n : Node) : Node :=
  {| _is_shutdown := _is_shutdown n; ready := ready n; _ws := _ws n;
     _listener_task := _listener_task n; _queue := _queue n;
     _players := ps; wire := wire n |}.

Definition set_wire (fs : list frame) (n : Node) : Node :=
  {| _is_shutdown := _is_shutdown n; ready := ready n; _ws := _ws n;
     _listener_task := _listener_task n; _queue := _queue n;
     _players := _players n; wire := fs |}.

(** [Node.__init__]: nothing connected, nothing queued, [ready] clear, and
    the class attribute [_is_shutdown = False]. *)
Definition __init__ : Node :=
  {| _is_shutdown := false; ready := false; _ws := None;
     _listener_task := 0; _queue := []; _players := []; wire := [] |}.

(** The test [self._ws is None or not self._ws.open]. *)
Definition no_open_socket (n : Node) : bool :=
  match _ws n with
  | None => true
  | Some ws => negb (open ws)
  end.

(** [Node.send]. *)
Definition send (data : frame) (n : Node) : Node :=
  if no_open_socket n then set_queue (_queue n ++ [data]) n
  else set_wire (wire n ++ [data]) n.

(** [Node.destroy_guild]. *)
Definition destroy_guild (guild_id : Z) (n : Node) : Node :=
  send (DESTROY guild_id) n.

(** Modelled from the spec: [Player.destroy], whose class is not part of
    [node.py].  The specification has [disconnect] destroy each unit of work
    "via the Outbound Command API's destroy command": the player asks its
    node to [destroy_guild] its guild. *)
Definition Player_destroy (p : Player) (n : Node) : Node :=
  destroy_guild (guild p) n.

(** *** What the environment decides *)

(** How one [websockets.connect(uri, ...)] call ends. *)
Inductive conn_outcome :=
| Opened              (* returns an open socket *)
| OSError             (* raises OSError *)
| InvalidStatusCode   (* raises websockets.InvalidStatusCode *)
| OtherError.         (* raises anything else *)

(** One call: how long it takes (in clock ticks) and how it ends.  A script
    lists, in order, the calls of one task that the endpoint answers; a call
    beyond the script is never answered. *)
Record attempt := { took : nat; ends : conn_outcome }.

(** How a [_multi_try_connect] task ends, if it does. *)
Inductive task_end :=
| Return (ws : option Ws)   (* returned [ws] or [None] *)
| Throw                     (* an exception left the coroutine *)
| Retrying.                 (* inside the [while] loop, on a call never answered *)

Record task := {
  ended : task_end;
  at_time : nat;          (* clock when it ended, or made its last call *)
  attempt_no : nat;       (* the local [attempt] *)
  calls : nat;            (* [websockets.connect] calls answered *)
  slept : list nat        (* the [asyncio.sleep] delays, in order *)
}.

(** The environment of one [connect] call: the scripted calls of the two
    racing tasks, and whether [self._ws.open] holds when the [k]-th iteration
    of the backlog loop reaches [send] (the peer may close the socket at any
    suspension point). *)
Record Env := {
  combo_script : list attempt;
  dedicated_script : list attempt;
  alive : nat → bool
}.

(** How a coroutine of [Node] ends.  [Diverges]: it does not return, because
    it awaits for ever or because its backlog loop is still running when the
    fuel is spent. *)
Inductive outcome :=
| Returns
| Raises (e : exn)
| Diverges.

(** A run of a coroutine: the states other tasks can observe while it is
    suspended (oldest first), the state it leaves, and how it ends. *)
Record run := {
  seen : list (Node * registry);
  final : Node * registry;
  how : outcome
}.

Section with_backoff.

(** [discord.backoff.ExponentialBackoff]: a generator object of another
    library.  [ExponentialBackoff] is a fresh generator and [delay] its
    method (the delay in ticks and the generator afterwards). *)
Context {Backoff : Type} (ExponentialBackoff : Backoff)
        (delay : Backoff → nat * Backoff).

(** The [while] loop of [Node._multi_try_connect].  A failed call leaves the
    node as it was, so the loop test reads the same [n] each time round. *)
Fixpoint retry (u : uri) (n : Node) (script : list attempt)
    (backoff : Backoff) (attempt now ncalls : nat) (sleeps : list nat) : task :=
  if negb (_is_shutdown n) && no_open_socket n then
    match script with
    | [] =>
        {| ended := Retrying; at_time := now; attempt_no := attempt;
           calls := ncalls; slept := sleeps |}
    | a :: script' =>
        match ends a with
        | Opened =>
            {| ended := Return (Some {| peer := u; open := true |});
               at_time := now + took a; attempt_no := attempt;
               calls := S ncalls; slept := sleeps |}
        | OSError =>
            let '(d, backoff') := delay backoff in
            retry u n script' backoff' (S attempt) (now + took a + d)
                  (S ncalls) (sleeps ++ [d])
        | InvalidStatusCode =>
            {| ended := Return None; at_time := now + took a;
               attempt_no := attempt; calls := S ncalls; slept := sleeps |}
        | OtherError =>
            {| ended := Throw; at_time := now + took a;
               attempt_no := attempt; calls := S ncalls; slept := sleeps |}
        end
    end
  else
    {| ended := Return None; at_time := now; attempt_no := attempt;
       calls := ncalls; slept := sleeps |}.

(** [Node._multi_try_connect]. *)
Definition _multi_try_connect (u : uri) (n : Node) (script : list attempt) : task :=
  retry u n script ExponentialBackoff 1 0 0 [].

(** What [await task] gives inside the loop over [asyncio.as_completed]. *)
Inductive awaited :=
| Got (ws : option Ws)   (* the task's return value *)
| Threw                  (* the task's exception *)
| TimedOut               (* asyncio.TimeoutError from [as_completed] *)
| Forever.               (* the await never resumes *)

(** One entry of [as_completed(tasks, timeout)]: a task that ended strictly
    before the deadline yields its result; with a deadline, any other task
    yields [TimeoutError]; without one, a task that never ends blocks. *)
Definition await_task (timeout : option nat) (t : task) : awaited :=
  match ended t, timeout with
  | Retrying, None => Forever
  | Retrying, Some _ => TimedOut
  | Return ws, None => Got ws
  | Throw, None => Threw
  | Return ws, Some d => if bool_decide (at_time t < d) then Got ws else TimedOut
  | Throw, Some d => if bool_decide (at_time t < d) then Threw else TimedOut
  end.

(** Tasks in completion order; a task still retrying completes last. *)
Definition completes_before (a b : task) : bool :=
  match ended a, ended b with
  | Retrying, _ => false
  | _, Retrying => true
  | _, _ => bool_decide (at_time a < at_time b)
  end.

Definition as_completed (timeout : option nat) (a b : task) : list awaited :=
  if completes_before b a
  then [await_task timeout b; await_task timeout a]
  else [await_task timeout a; await_task timeout b].

(** The [for task in as_completed(...)] loop with its [else] clause:
    [contextlib.suppress(Exception)] swallows whatever the await raises, a
    truthy result breaks out. *)
Inductive race_end :=
| Break (ws : Ws)
| NoBreak          (* the [else] clause runs: raise asyncio.TimeoutError *)
| Hang.            (* the loop awaits a task that never ends *)

Fixpoint race (aws : list awaited) : race_end :=
  match aws with
  | [] => NoBreak
  | Got (Some ws) :: _ => Break ws
  | Got None :: aws' => race aws'
  | Threw :: aws' => race aws'
  | TimedOut :: aws' => race aws'
  | Forever :: _ => Hang
  end.

(** The socket's [open] flag becoming [b]: at the hand of the environment
    (the peer closing the socket, or what the backlog loop finds when it
    reaches [send]), or by [self._ws.close()]. *)
Definition socket_now (b : bool) (n : Node) : Node :=
  match _ws n with
  | None => n
  | Some ws => set_ws (Some {| peer := peer ws; open := b |}) n
  end.

(** [for data in self._queue: await self.send(data)].  A Python list iterator
    walks by index over the live list, so frames appended during the walk
    are walked too; [fuel] bounds the number of iterations.  The first
    component lists the state after each [send]. *)
Fixpoint flush (fuel : nat) (alive : nat → bool) (i : nat) (n : Node)
    : list Node * option Node :=
  match fuel with
  | O => ([], None)
  | S fuel' =>
      match _queue n !! i with
      | None => ([], Some n)
      | Some data =>
          let n' := send data (socket_now (alive i) n) in
          let '(mids, r) := flush fuel' alive (S i) n' in
          (n' :: mids, r)
      end
  end.

(** [Node.connect].  The two tasks start from the same node: a task changes
    the node only by installing the socket it returns, and the first task to
    return one ends the race.  (A slower task that opens a socket as well
    swaps it in later; [alive] covers what the loop over the backlog sees of
    that.) *)
Definition connect (self : node_id) (timeout : option nat) (env : Env)
    (fuel : nat) (n : Node) (reg : registry) : run :=
  let n1 := set_is_shutdown false n in
  let tasks := (_multi_try_connect combo_uri n1 (combo_script env),
                _multi_try_connect dedicated_uri n1 (dedicated_script env)) in
  match race (as_completed timeout tasks.1 tasks.2) with
  | NoBreak =>
      {| seen := [(n1, reg)]; final := (n1, reg); how := Raises TimeoutError |}
  | Hang =>
      {| seen := [(n1, reg)]; final := (n1, reg); how := Diverges |}
  | Break ws =>
      let n2 := set_ws (Some ws) n1 in
      let reg' := dict_set self [] reg in
      let n3 := set_listener_task (S (_listener_task n2)) n2 in
      let '(mids, r) := flush fuel (alive env) 0 n3 in
      let before := (n1, reg) :: (n2, reg) :: (n3, reg') :: ((λ m, (m, reg')) <$> mids) in
      match r with
      | None =>
          {| seen := before; final := (default n3 (last mids), reg'); how := Diverges |}
      | Some n4 =>
          let n5 := set_ready true n4 in
          {| seen := before ++ [(n5, reg')]; final := (n5, reg'); how := Returns |}
      end
  end.

(** The first [k] delays a generator hands out. *)
Fixpoint delays (backoff : Backoff) (k : nat) : list nat :=
  match k with
  | O => []
  | S k' => (delay backoff).1 :: delays (delay backoff).2 k'
  end.

(** An attempt task wins the race of [connect] when it returns a socket,
    before the deadline if there is one. *)
Definition wins (timeout : option nat) (t : task) : Prop :=
  ∃ ws, ended t = Return (Some ws) ∧ ∀ d, timeout = Some d → at_time t < d.

(** [Node._reconnect]. *)
Definition _reconnect (self : node_id) (env : Env) (fuel : nat)
    (n : Node) (reg : registry) : run :=
  let n1 := set_ready false n in
  if _is_shutdown n1 then
    {| seen := []; final := (n1, reg); how := Returns |}
  else
    let r := connect self None env fuel n1 reg in
    match how r with
    | Raises TimeoutError => {| seen := seen r; final := final r; how := Returns |}
    | _ => r
    end.

(** The tail of [Node.listener], once its [while] loop is left:
    [self.ready.clear()], then the [_reconnect] task it creates. *)
Definition listener_exit (self : node_id) (env : Env) (fuel : nat)
    (n : Node) (reg : registry) : run :=
  _reconnect self env fuel (set_ready false n) reg.

End with_backoff.

(** [while self._players: await self._players.pop().destroy()], walking the
    players in the order [pop] hands them out. *)
Fixpoint destroy_players (ps : list Player) (n : Node) : Node :=
  match ps with
  | [] => n
  | p :: ps' => destroy_players ps' (Player_destroy p (set_players ps' n))
  end.

(** [Node.disconnect]. *)
Definition disconnect (self : node_id) (n : Node) (reg : registry)
    : Node * registry :=
  let n1 := set_is_shutdown true n in
  let n2 := set_ready false n1 in
  let n3 := if negb (no_open_socket n2) then socket_now false n2 else n2 in
  let n4 := destroy_players (_players n3) n3 in
  (n4, dict_pop self reg).

(** A method call on the object [self] of a world. *)
Definition on_node (self : node_id) (f : Node → registry → Node * registry)
    (w : World) : World :=
  match objects w !! self with
  | None => w
  | Some n =>
      let '(n', reg') := f n (_nodes w) in
      {| objects := <[self := n']> (objects w); _nodes := reg' |}
  end.

End Session.

(** ** [get_node] *)

Module Registry.

(** The sentinel [guild_count = 1e10]. *)
Definition guild_count0 : Z := 10000000000%Z.

Definition NoNodesAvailable : exn := IndexError "no Nodes have been instantiated".
Definition NoReadyNodes : exn := IndexError "No nodes found.".

(** The [for node, guild_ids in _nodes.items()] loop.  [inl node] is the
    [return node] inside the loop; [inr least_used] is the loop running to
    its end. *)
Fixpoint scan (objs : gmap node_id Node) (guild_id : Z)
    (items : registry) (guild_count : Z) (least_used : option node_id)
    : node_id + option node_id :=
  match items with
  | [] => inr least_used
  | (node, guild_ids) :: items' =>
      if negb (is_set objs node) then
        scan objs guild_id items' guild_count least_used
      else
        let '(guild_count, least_used) :=
          if (Z.of_nat (length guild_ids) <? guild_count)%Z
          then (Z.of_nat (length guild_ids), Some node)
          else (guild_count, least_used) in
        if bool_decide (guild_id ∈ guild_ids) then inl node
        else scan objs guild_id items' guild_count least_used
  end.

Definition get_node (guild_id : Z) (w : World) : result (node_id * World) :=
  match _nodes w with
  | [] => Raise NoNodesAvailable
  | _ =>
      match scan (objects w) guild_id (_nodes w) guild_count0 None with
      | inl node => Ok (node, w)
      | inr None => Raise NoReadyNodes
      | inr (Some least_used) =>
          Ok (least_used,
              {| objects := objects w;
                 _nodes := dict_alter (λ ids, ids ++ [guild_id]) least_used (_nodes w) |})
      end
  end.

(** The module-level [disconnect]. *)
Definition disconnect (w : World) : World :=
  foldl (λ w node, Session.on_node node (Session.disconnect node) w)
        w (keys (_nodes w)).

(** The nodes whose assignment list holds [guild_id], in registry order. *)
Definition owners_in (guild_id : Z) (items : registry) : list node_id :=
  (List.filter (λ e, bool_decide (guild_id ∈ e.2)) items).*1.

Definition owners (guild_id : Z) (w : World) : list node_id :=
  owners_in guild_id (_nodes w).

(** Those of them that are ready. *)
Definition ready_owners_in (objs : gmap node_id Node) (guild_id : Z)
    (items : registry) : list node_id :=
  List.filter (is_set objs) (owners_in guild_id items).

Definition ready_owners (guild_id : Z) (w : World) : list node_id :=
  ready_owners_in (objects w) guild_id (_nodes w).


(** The nodes [get_node] does not skip. *)
Definition ready_nodes (w : World) : list node_id :=
  List.filter (is_set (objects w)) (keys (_nodes w)).

End Registry.

(** ** The process as a transition system

    One step is one call from the application or one event of the
    environment; each coroutine runs to its end within its step. *)

Module System.
Import Session Registry.

Definition init : World := {| objects := ∅; _nodes := [] |}.


Section with_backoff.
Context {Backoff : Type} (ExponentialBackoff : Backoff)
        (delay : Backoff → nat * Backoff).

Inductive step : World → World → Prop :=
| step_create w i :
    objects w !! i = None →
    step w {| objects := <[i := __init__]> (objects w); _nodes := _nodes w |}
| step_send w i data :
    step w (on_node i (λ n reg, (send data n, reg)) w)
| step_add_player w i p :
    step w (on_node i (λ n reg, (set_players (p :: _players n) n, reg)) w)
| step_peer_close w i :
    step w (on_node i (λ n reg, (socket_now false n, reg)) w)
| step_connect w i timeout env fuel :
    step w (on_node i (λ n reg,
              final (connect ExponentialBackoff delay i timeout env fuel n reg)) w)
| step_listener_exit w i env fuel :
    step w (on_node i (λ n reg,
              final (listener_exit ExponentialBackoff delay i env fuel n reg)) w)
| step_disconnect w i :
    step w (on_node i (Session.disconnect i) w)
| step_disconnect_all w :
    step w (Registry.disconnect w)
| step_get_node w guild_id node w' :
    get_node guild_id w = Ok (node, w') →
    step w w'.



End with_backoff.

End System.

(** ** Concrete inputs used below *)

Module Sample.
Import Session Registry System.

(** A generator whose [k]-th delay is [2 ^ k] ticks. *)
Definition doubling (k : nat) : nat * nat := (2 ^ k, S k).

Definition quick (o : conn_outcome) : attempt := {| took := 1; ends := o |}.

(** The combined port answers, the dedicated port rejects the handshake. *)
Definition combo_answers : Env :=
  {| combo_script := [quick Opened];
     dedicated_script := [quick InvalidStatusCode];
     alive := λ _, true |}.

(** Both ports reject the handshake. *)
Definition both_reject : Env :=
  {| combo_script := [quick InvalidStatusCode];
     dedicated_script := [quick InvalidStatusCode];
     alive := λ _, true |}.

(** Both ports are unreachable for as long as anyone looks. *)
Definition unreachable : Env :=
  {| combo_script := [quick OSError; quick OSError];
     dedicated_script := [quick OSError];
     alive := λ _, true |}.

Definition play7 : frame := PLAY 7 "track".
Definition stop7 : frame := STOP 7.

(** A session that queued [play7] before its first connect, lost its socket
    after it, and queued [stop7] before the listener noticed. *)
Definition queued_once : Node := send play7 __init__.
Definition first_connect : run :=
  connect 0 doubling 0 None combo_answers 8 queued_once [].
Definition dropped : Node :=
  send stop7 (socket_now false (final first_connect).1).
Definition second_connect : run :=
  listener_exit 0 doubling 0 combo_answers 8 dropped (final first_connect).2.

(** Node 0 owns guild 5 but is not ready; node 1 is ready and idle. *)
Definition owner_down : World :=
  {| objects := <[1 := set_ready true __init__]> (<[0 := __init__]> ∅);
     _nodes := [(0, [5%Z]); (1, [])] |}.



(** Nodes 0 and 1 are ready, with two guilds and one; node 2 has none and is
    not ready. *)
Definition three_nodes : World :=
  {| objects := <[2 := __init__]> (<[1 := set_ready true __init__]>
                  (<[0 := set_ready true __init__]> ∅));
     _nodes := [(0, [1%Z; 2%Z]); (1, [3%Z]); (2, [])] |}.


(** A connected, ready session with two players. *)
Definition busy : Node :=
  {| _is_shutdown := false; ready := true;
     _ws := Some {| peer := combo_uri; open := true |};
     _listener_task := 1; _queue := []; _players := [{| guild := 8 |}; {| guild := 9 |}];
     wire := [] |}.

End Sample.

(** * The rest of [node.py]: inbound frames, commands, helpers *)

From stdpp Require Import pretty.

(** ** JSON values and the enumerations *)

Module Wire.

(** What [json.loads] returns.  A float is kept as its literal. *)
#[warnings="-register-all"]
Inductive json :=
| JNull
| JBool (b : bool)
| JInt (z : Z)
| JFloat (literal : string)
| JStr (s : string)
| JList (l : list json)
| JDict (d : gmap string json).

(** [d.get(key)]: a missing key gives [None], which is also what a JSON
    [null] is. *)
Definition get (key : string) (d : gmap string json) : json :=
  default JNull (d !! key).

End Wire.

Module Enums.
Import Wire.

Inductive DiscordVoiceSocketResponses := VOICE_STATE_UPDATE | VOICE_SERVER_UPDATE.
Inductive LavalinkIncomingOp := EVENT | PLAYER_UPDATE | STATS.
Inductive LavalinkOutgoingOp := VOICE_UPDATE | DESTROY | PLAY | STOP | PAUSE | SEEK | VOLUME.
Inductive LavalinkEvents :=
| TRACK_END | TRACK_EXCEPTION | TRACK_STUCK | TRACK_START | QUEUE_END.
Inductive TrackEndReason := FINISHED | LOAD_FAILED | STOPPED | REPLACED | CLEANUP.

(** A Python [Enum] class: its members in definition order and their
    values. *)
Class Enum (E : Type) := { members : list E; value : E → string }.

#[global] Instance DiscordVoiceSocketResponses_enum : Enum DiscordVoiceSocketResponses :=
  {| members := [VOICE_STATE_UPDATE; VOICE_SERVER_UPDATE];
     value m := match m with
                | VOICE_STATE_UPDATE => "VOICE_STATE_UPDATE"
                | VOICE_SERVER_UPDATE => "VOICE_SERVER_UPDATE"
                end |}.

#[global] Instance LavalinkIncomingOp_enum : Enum LavalinkIncomingOp :=
  {| members := [EVENT; PLAYER_UPDATE; STATS];
     value m := match m with
                | EVENT => "event"
                | PLAYER_UPDATE => "playerUpdate"
                | STATS => "stats"
                end |}.

#[global] Instance LavalinkOutgoingOp_enum : Enum LavalinkOutgoingOp :=
  {| members := [VOICE_UPDATE; DESTROY; PLAY; STOP; PAUSE; SEEK; VOLUME];
     value m := match m with
                | VOICE_UPDATE => "voiceUpdate"
                | DESTROY => "destroy"
                | PLAY => "play"
                | STOP => "stop"
                | PAUSE => "pause"
                | SEEK => "seek"
                | VOLUME => "volume"
                end |}.

#[global] Instance LavalinkEvents_enum : Enum LavalinkEvents :=
  {| members := [TRACK_END; TRACK_EXCEPTION; TRACK_STUCK; TRACK_START; QUEUE_END];
     value m := match m with
                | TRACK_END => "TrackEndEvent"
                | TRACK_EXCEPTION => "TrackExceptionEvent"
                | TRACK_STUCK => "TrackStuckEvent"
                | TRACK_START => "TrackStartEvent"
                | QUEUE_END => "QueueEndEvent"
                end |}.

#[global] Instance TrackEndReason_enum : Enum TrackEndReason :=
  {| members := [FINISHED; LOAD_FAILED; STOPPED; REPLACED; CLEANUP];
     value m := match m with
                | FINISHED => "FINISHED"
                | LOAD_FAILED => "LOAD_FAILED"
                | STOPPED => "STOPPED"
                | REPLACED => "REPLACED"
                | CLEANUP => "CLEANUP"
                end |}.

(** [E(v)], the lookup of a member by value; [None] stands for the
    [ValueError] of a value no member has. *)
Definition call {E : Type} `{Enum E} (v : json) : option E :=
  match v with
  | JStr s => List.find (λ m, bool_decide (value m = s)) members
  | _ => None
  end.

End Enums.

(** ** Inbound frames: [listener] and [_handle_op] *)

Module Inbound.
Import Wire Session.

(** Modelled from the spec: [rest_api.Track], a class of another file, of
    which [node.py] reads the attribute [track_identifier], the "opaque
    identifier string" of the specification. *)
Record Track := { track_identifier : string }.

(** The named tuples and [Stats]. *)
Record PlayerState := { position : json; time : json }.
Record MemoryInfo := { reservable : json; used : json; free : json; allocated : json }.
Record CPUInfo := { cores : json; systemLoad : json; lavalinkLoad : json }.
Record Stats := {
  memory : MemoryInfo;
  players : json;
  active_players : json;
  cpu_info : CPUInfo;
  uptime : json
}.

(** Binding the keyword arguments [d] to the fields of a named tuple: every
    field must be a key of [d] (else "missing argument") and [d] must have
    no other key (else "unexpected keyword argument"); [None] stands for the
    [TypeError]. *)
Fixpoint bind_fields (fields : list string) (d : gmap string json)
    : option (list json) :=
  match fields with
  | [] => if bool_decide (d = ∅) then Some [] else None
  | f :: fields' =>
      match d !! f with
      | None => None
      | Some v =>
          match bind_fields fields' (delete f d) with
          | None => None
          | Some vs => Some (v :: vs)
          end
      end
  end.

(** Passing [v] as keyword arguments: [v] must be a mapping in the first
    place. *)
Definition unpack (fields : list string) (v : json) : option (list json) :=
  match v with
  | JDict d => bind_fields fields d
  | _ => None
  end.

Definition PlayerState_new (v : json) : option PlayerState :=
  match unpack ["position"; "time"] v with
  | Some [p; t] => Some {| position := p; time := t |}
  | _ => None
  end.

Definition MemoryInfo_new (v : json) : option MemoryInfo :=
  match unpack ["reservable"; "used"; "free"; "allocated"] v with
  | Some [r; u; f; a] =>
      Some {| reservable := r; used := u; free := f; allocated := a |}
  | _ => None
  end.

Definition CPUInfo_new (v : json) : option CPUInfo :=
  match unpack ["cores"; "systemLoad"; "lavalinkLoad"] v with
  | Some [c; s; l] => Some {| cores := c; systemLoad := s; lavalinkLoad := l |}
  | _ => None
  end.

(** [Stats.__init__]. *)
Definition Stats_new (memory players active_players cpu uptime : json)
    : option Stats :=
  match MemoryInfo_new memory with
  | None => None
  | Some m =>
      match CPUInfo_new cpu with
      | None => None
      | Some c =>
          Some {| memory := m; players := players;
                  active_players := active_players; cpu_info := c;
                  uptime := uptime |}
      end
  end.

(** What the event handler is called with: the op, the decoded value and
    the dict it was decoded from.  The dict of a synthesized event holds a
    [Track] object, so its values are JSON values or tracks. *)
Inductive decoded :=
| Event (event : Enums.LavalinkEvents)
| State (state : PlayerState)
| Statistics (stats : Stats).

Inductive pyobj :=
| Json (j : json)
| TrackObj (t : Track).

Record handler_call := {
  op : Enums.LavalinkIncomingOp;
  arg : decoded;
  data : gmap string pyobj
}.

(** How a [_handle_op] task ends. *)
Inductive handled :=
| Called (c : handler_call)   (* [self.event_handler(...)] *)
| Logged                      (* unknown event type, logged *)
| Failed.                     (* an exception ends the task *)

(** [Node._handle_op]. *)
Definition _handle_op (op : Enums.LavalinkIncomingOp) (d : gmap string json)
    : handled :=
  match op with
  | Enums.EVENT =>
      match Enums.call (get "type" d) with
      | None => Logged
      | Some event =>
          Called {| op := op; arg := Event event; data := Json <$> d |}
      end
  | Enums.PLAYER_UPDATE =>
      match PlayerState_new (get "state" d) with
      | None => Failed
      | Some state =>
          Called {| op := op; arg := State state; data := Json <$> d |}
      end
  | Enums.STATS =>
      match Stats_new (get "memory" d) (get "players" d) (get "playingPlayers" d)
                      (get "cpu" d) (get "uptime" d) with
      | None => Failed
      | Some stats =>
          Called {| op := op; arg := Statistics stats; data := Json <$> d |}
      end
  end.

(** What [await self._ws.recv()] gives the listener: a message, decoded by
    [json.loads] ([None] when the text is not JSON), or the
    [ConnectionClosed] exception. *)
Inductive received :=
| Message (text : option json)
| ConnectionClosed.

(** How the [while] loop of [listener] stands once the script of receptions
    is used up. *)
Inductive loop_end :=
| Left (n : Node)   (* the loop is left; [n] is the session at that point *)
| Crashed           (* an exception leaves the coroutine *)
| Receiving.        (* awaiting the next message *)

(** The [while] loop of [Node.listener]: the [_handle_op] tasks it creates,
    in order, and how it ends.  A reception does not change the session, so
    the loop test reads the same [n] each time round; [ConnectionClosed]
    means the socket is closed. *)
Fixpoint listener_loop (n : Node) (script : list received)
    : list (Enums.LavalinkIncomingOp * gmap string json) * loop_end :=
  match _ws n with
  | None => ([], Crashed)
  | Some ws =>
      if open ws && negb (_is_shutdown n) then
        match script with
        | [] => ([], Receiving)
        | ConnectionClosed :: _ => ([], Left (socket_now false n))
        | Message None :: _ => ([], Crashed)
        | Message (Some (JDict d)) :: script' =>
            match Enums.call (get "op" d) with
            | None => listener_loop n script'
            | Some op =>
                let '(tasks, e) := listener_loop n script' in
                ((op, d) :: tasks, e)
            end
        | Message (Some _) :: _ => ([], Crashed)
        end
      else ([], Left n)
  end.

(** The calls the event handler receives from the tasks created.  The tasks
    never suspend, so they run in the order of their creation. *)
Definition handler_calls
    (tasks : list (Enums.LavalinkIncomingOp * gmap string json))
    : list handler_call :=
  omap (λ t, match _handle_op t.1 t.2 with Called c => Some c | _ => None end) tasks.

Section with_backoff.
Context {Backoff : Type} (ExponentialBackoff : Backoff)
        (delay : Backoff → nat * Backoff).

(** [Node.listener]: the handler calls it causes, how its loop ends, and,
    when the loop is left, the run of the exit path ([ready.clear()] and the
    [_reconnect] task). *)
Definition listener (self : node_id) (env : Env) (fuel : nat) (n : Node)
    (reg : registry) (script : list received)
    : list handler_call * loop_end * option run :=
  let '(tasks, e) := listener_loop n script in
  (handler_calls tasks, e,
   match e with
   | Left n' => Some (listener_exit ExponentialBackoff delay self env fuel n' reg)
   | _ => None
   end).

End with_backoff.

End Inbound.

(** ** Commands and helpers of [Node], and [join_voice] *)

Module Commands.
Import Wire Session Inbound.

(** [Node.send_lavalink_voice_update]. *)
Definition send_lavalink_voice_update (guild_id : Z) (session_id event : string)
    (n : Node) : Node :=
  send (VOICE_UPDATE guild_id session_id event) n.

(** [Node.stop]: the frame, then the synthesized [QUEUE_END] event. *)
Definition stop (guild_id : Z) (n : Node) : Node * list handler_call :=
  (send (STOP guild_id) n,
   [{| op := Enums.EVENT; arg := Event Enums.QUEUE_END;
       data := {["guildId" := Json (JStr (pretty guild_id))]} |}]).

(** [Node.play]: the frame, then the synthesized [TRACK_START] event. *)
Definition play (guild_id : Z) (track : Track) (n : Node)
    : Node * list handler_call :=
  (send (PLAY guild_id (track_identifier track)) n,
   [{| op := Enums.EVENT; arg := Event Enums.TRACK_START;
       data := <["track" := TrackObj track]>
                 {["guildId" := Json (JStr (pretty guild_id))]} |}]).

(** [Node.pause], [Node.volume], [Node.seek]. *)
Definition pause (guild_id : Z) (paused : bool) (n : Node) : Node :=
  send (PAUSE guild_id paused) n.

Definition volume (guild_id : Z) (_volume : Z) (n : Node) : Node :=
  send (VOLUME guild_id _volume) n.

Definition seek (guild_id : Z) (position : Z) (n : Node) : Node :=
  send (SEEK guild_id position) n.

(** The outcome of a property guarded by [assert]. *)
Inductive asserted (A : Type) :=
| Fine (a : A)
| AssertionError (msg : string).
Arguments Fine {A} a.
Arguments AssertionError {A} msg.

(** [Node.lavalink_major_version]; [response_headers] stands for the
    attribute of that name of a socket. *)
Definition lavalink_major_version (response_headers : Ws → gmap string string)
    (n : Node) : asserted (option string) :=
  match _ws n with
  | None => AssertionError "not connected"
  | Some ws => Fine (response_headers ws !! "Lavalink-Major-Version")
  end.

(** [Node._get_connect_headers]. *)
Definition _get_connect_headers (password : string) (user_id num_shards : Z)
    : gmap string json :=
  <["Authorization" := JStr password]>
    (<["User-Id" := JInt user_id]> {["Num-Shards" := JInt num_shards]}).

(** The call [voice_ws.voice_state(guild_id, channel_id)] on the voice socket
    that [voice_ws_func] of node [via] hands out. *)
Record voice_state := { via : node_id; for_guild : Z; to_channel : Z }.

(** The module-level [join_voice]. *)
Definition join_voice (guild_id channel_id : Z) (w : World)
    : result (voice_state * World) :=
  match Registry.get_node guild_id w with
  | Raise e => Raise e
  | Ok (node, w') =>
      Ok ({| via := node; for_guild := guild_id; to_channel := channel_id |}, w')
  end.

End Commands.

(** ** Notions used in the statements below *)

Module Notions.
Import Session Registry.

(** The loads of the ready nodes differ by at most one. *)
Definition balanced (w : World) : Prop :=
  ∀ m1 l1 m2 l2,
    (m1, l1) ∈ _nodes w → (m2, l2) ∈ _nodes w →
    is_set (objects w) m1 = true → is_set (objects w) m2 = true →
    length l1 ≤ length l2 + 1.

(** A burst of [send] calls, in call order. *)
Definition send_all (fs : list frame) (n : Node) : Node :=
  foldl (λ m data, send data m) n fs.

(** A reception the listener does not drop: anything but a JSON object
    whose [op] is not the value of a [LavalinkIncomingOp]. *)
Definition recognised (r : Inbound.received) : bool :=
  match r with
  | Inbound.Message (Some (Wire.JDict d)) =>
      match Enums.call (Wire.get "op" d) : option Enums.LavalinkIncomingOp with
      | Some _ => true
      | None => false
      end
  | _ => true
  end.

(** A message that is a JSON object. *)
Definition is_object (r : Inbound.received) : bool :=
  match r with
  | Inbound.Message (Some (Wire.JDict _)) => true
  | _ => false
  end.

End Notions.

(** ** More concrete inputs *)

Module Inputs.
Import Wire Session Inbound Commands.

Definition obj (l : list (string * json)) : json := JDict (list_to_map l).

Definition stats_frame : gmap string json :=
  list_to_map
    [("op", JStr "stats");
     ("memory", obj [("reservable", JInt 4); ("used", JInt 1);
                     ("free", JInt 3); ("allocated", JInt 2)]);
     ("cpu", obj [("cores", JInt 4); ("systemLoad", JFloat "0.25");
                  ("lavalinkLoad", JFloat "0.125")]);
     ("uptime", JInt 1000)].

Definition update_frame : gmap string json :=
  list_to_map
    [("op", JStr "playerUpdate"); ("guildId", JStr "7");
     ("state", obj [("position", JInt 1500); ("time", JInt 99)])].

Definition end_frame : gmap string json :=
  list_to_map
    [("op", JStr "event"); ("type", JStr "TrackEndEvent"); ("guildId", JStr "7");
     ("reason", JStr "FINISHED")].

Definition odd_frame : gmap string json :=
  list_to_map [("op", JStr "ping")].

(** A session with an open socket, as [connect] leaves it. *)
Definition connected : Node :=
  {| _is_shutdown := false; ready := true;
     _ws := Some {| peer := combo_uri; open := true |};
     _listener_task := 1; _queue := []; _players := []; wire := [] |}.

(** The combined port answers, but the socket is closed for good after the
    first frame of the backlog has been sent. *)
Definition combo_then_closed : Env :=
  {| combo_script := [Sample.quick Opened];
     dedicated_script := [Sample.quick InvalidStatusCode];
     alive := λ j, match j with 0 => true | _ => false end |}.


(** Node 0 and node 1 ready with one guild each, node 2 ready and idle. *)
Definition balanced_world : World :=
  {| objects := <[2 := set_ready true __init__]>
                  (<[1 := set_ready true __init__]>
                     (<[0 := set_ready true __init__]> ∅));
     _nodes := [(0, [1%Z]); (1, [2%Z]); (2, [])] |}.

(** Two registered sessions, the first with a player, and one that never
    connected. *)
Definition pool : World :=
  {| objects := <[2 := __init__]> (<[1 := connected]> (<[0 := Sample.busy]> ∅));
     _nodes := [(0, [8%Z; 9%Z]); (1, [])] |}.

End Inputs.

(** * Properties *)

(** ** Node selection *)

Module RegistryProofs.
Import Session Registry.

Section scan.
Variables (objs : gmap node_id Node) (g : Z).

Lemma ready_owners_in_cons k v items :
  ready_owners_in objs g ((k, v) :: items) =
  if bool_decide (g ∈ v) && is_set objs k
  then k :: ready_owners_in objs g items
  else ready_owners_in objs g items.
Proof.
  unfold ready_owners_in, owners_in. simpl.
  destruct (bool_decide (g ∈ v)); simpl; [|done].
  by destruct (is_set objs k).
Qed.

(** The loop returns from inside exactly at the first ready owner. *)
Lemma scan_found items : ∀ gc lu node rest,
  ready_owners_in objs g items = node :: rest →
  scan objs g items gc lu = inl node.
Proof.
  induction items as [|[k v] items IH]; intros gc lu node rest; [done|].
  rewrite ready_owners_in_cons. simpl.
  destruct (is_set objs k); simpl.
  - destruct (Z.of_nat (length v) <? gc)%Z; destruct (bool_decide (g ∈ v)); simpl;
      try (intros [= <- _]; done); eauto.
  - rewrite andb_false_r. eauto.
Qed.

(** With no ready node at all the loop ends with [least_used] untouched. *)
Lemma scan_none_ready items : ∀ gc lu,
  List.filter (is_set objs) (keys items) = [] →
  scan objs g items gc lu = inr lu.
Proof.
  induction items as [|[k v] items IH]; intros gc lu; [done|].
  simpl. destruct (is_set objs k); simpl; [done|]. eauto.
Qed.

(** With no ready owner the loop runs to its end, and [least_used] is then
    the earliest ready node of least load below the incoming [guild_count],
    if there is one. *)
Lemma scan_least_used items : ∀ gc lu,
  ready_owners_in objs g items = [] →
  (scan objs g items gc lu = inr lu ∧
   ∀ m l, (m, l) ∈ items → is_set objs m = true → (gc ≤ Z.of_nat (length l))%Z)
  ∨ (∃ pre node ids post,
       items = pre ++ (node, ids) :: post ∧
       is_set objs node = true ∧
       (Z.of_nat (length ids) < gc)%Z ∧
       (∀ m l, (m, l) ∈ pre → is_set objs m = true → length ids < length l) ∧
       (∀ m l, (m, l) ∈ post → is_set objs m = true → length ids ≤ length l) ∧
       scan objs g items gc lu = inr (Some node)).
Proof.
  induction items as [|[k v] items IH]; intros gc lu.
  { intros _. left. split; [done|]. intros m l H. by apply elem_of_nil in H. }
  rewrite ready_owners_in_cons. simpl.
  destruct (is_set objs k) eqn:Ek; simpl.
  - destruct (bool_decide (g ∈ v)); simpl; [done|]. intros HR.
    destruct (Z.ltb_spec (Z.of_nat (length v)) gc) as [Hlt|Hge].
    + destruct (IH (Z.of_nat (length v)) (Some k) HR)
        as [[-> Hall]|(pre & node & ids & post & -> & Hr & Hlt' & Hpre & Hpost & ->)].
      * right. exists [], k, v, items. repeat split; try done.
        -- intros m l H. by apply elem_of_nil in H.
        -- intros m l Hin Hm. specialize (Hall m l Hin Hm). lia.
      * right. exists ((k, v) :: pre), node, ids, post. repeat split; try done.
        -- lia.
        -- intros m l [[= -> ->]|Hin]%elem_of_cons Hm; [lia|eauto].
    + destruct (IH gc lu HR)
        as [[-> Hall]|(pre & node & ids & post & -> & Hr & Hlt' & Hpre & Hpost & ->)].
      * left. split; [done|].
        intros m l [[= -> ->]|Hin]%elem_of_cons Hm; [lia|eauto].
      * right. exists ((k, v) :: pre), node, ids, post. repeat split; try done.
        intros m l [[= -> ->]|Hin]%elem_of_cons Hm; [lia|eauto].
  - rewrite andb_false_r. intros HR.
    destruct (IH gc lu HR)
      as [[-> Hall]|(pre & node & ids & post & -> & Hr & Hlt' & Hpre & Hpost & ->)].
    + left. split; [done|].
      intros m l [[= -> ->]|Hin]%elem_of_cons Hm; [congruence|eauto].
    + right. exists ((k, v) :: pre), node, ids, post. repeat split; try done.
      intros m l [[= -> ->]|Hin]%elem_of_cons Hm; [congruence|eauto].
Qed.

End scan.

Lemma owners_ready_owners objs g items :
  owners_in g items = [] → ready_owners_in objs g items = [].
Proof. unfold ready_owners_in. by intros ->. Qed.

Lemma dict_alter_split {V} (f : V → V) (k : node_id) (v : V) pre post :
  k ∉ keys pre →
  dict_alter f k (pre ++ (k, v) :: post) = pre ++ (k, f v) :: post.
Proof.
  induction pre as [|[k' v'] pre IH]; simpl; intros Hk.
  - by rewrite decide_True.
  - apply not_elem_of_cons in Hk as [Hne Hk].
    rewrite decide_False; [|done]. by rewrite IH.
Qed.

Lemma NoDup_keys_split {V} (k : node_id) (v : V) pre post :
  NoDup (keys (pre ++ (k, v) :: post)) → k ∉ keys pre.
Proof.
  unfold keys. rewrite fmap_app. simpl.
  intros (_ & H & _)%NoDup_app. intros Hin. apply (H k Hin). left.
Qed.

Lemma scan_inl_head objs g items gc lu node :
  scan objs g items gc lu = inl node →
  head (ready_owners_in objs g items) = Some node.
Proof.
  destruct (ready_owners_in objs g items) as [|m rest] eqn:E.
  - destruct (scan_least_used objs g items gc lu E)
      as [[-> _]|(? & ? & ? & ? & _ & _ & _ & _ & _ & ->)]; discriminate.
  - rewrite (scan_found _ _ _ gc lu _ _ E). by intros [= ->].
Qed.

Lemma scan_inr_no_owner objs g items gc lu lu' :
  scan objs g items gc lu = inr lu' → ready_owners_in objs g items = [].
Proof.
  destruct (ready_owners_in objs g items) as [|m rest] eqn:E; [done|].
  rewrite (scan_found _ _ _ gc lu _ _ E). discriminate.
Qed.

Lemma ready_owners_in_nil_cons objs g k v items :
  ready_owners_in objs g ((k, v) :: items) = [] →
  bool_decide (g ∈ v) && is_set objs k = false ∧ ready_owners_in objs g items = [].
Proof.
  rewrite ready_owners_in_cons.
  by destruct (bool_decide (g ∈ v) && is_set objs k).
Qed.

(** Appending the id to the list of a ready node makes that node the one
    ready owner, if there was none. *)
Lemma ready_owners_in_append objs g k items :
  ready_owners_in objs g items = [] →
  is_set objs k = true →
  k ∈ keys items →
  ready_owners_in objs g (dict_alter (λ ids, ids ++ [g]) k items) = [k].
Proof.
  induction items as [|[k' v'] items IH]; simpl; intros HR Hk Hin.
  { by apply elem_of_nil in Hin. }
  apply ready_owners_in_nil_cons in HR as [Hc HR].
  destruct (decide (k' = k)) as [->|Hne].
  - rewrite ready_owners_in_cons, HR, Hk.
    rewrite bool_decide_eq_true_2; [done|]. apply elem_of_app. right. left.
  - rewrite ready_owners_in_cons, Hc. apply IH; [done..|].
    apply elem_of_cons in Hin as [?|?]; [congruence|done].
Qed.





(** What a successful [get_node] leaves behind: the node it returns is the
    first ready owner of the id. *)
Lemma get_node_head g w node w' :
  get_node g w = Ok (node, w') → head (ready_owners g w') = Some node.
Proof.
  unfold get_node. destruct (_nodes w) as [|e r] eqn:E; [done|]. rewrite <- E.
  destruct (scan _ _ _ _ _) as [m|[lu|]] eqn:Hs; intros [= <- <-].
  - by eapply scan_inl_head.
  - pose proof (scan_inr_no_owner _ _ _ _ _ _ Hs) as HR.
    destruct (scan_least_used (objects w) g (_nodes w) guild_count0 None HR)
      as [[Hs' _]|(pre & m & ids & post & E' & Hr & _ & _ & _ & Hs')];
      rewrite Hs' in Hs; [done|]. injection Hs as <-.
    unfold ready_owners. simpl. rewrite ready_owners_in_append; [done..|].
    rewrite E'. unfold keys. rewrite fmap_app. apply elem_of_app. right. left.
Qed.

(** C4: [get_node] on an empty registry raises the "no Nodes have been
    instantiated" error; on a non-empty registry none of whose nodes is
    ready it raises the "No nodes found." error; the two errors differ (both
    are [IndexError], told apart by their message). *)
Theorem get_node_failures (guild_id : Z) (w : World) :
  (_nodes w = [] → get_node guild_id w = Raise NoNodesAvailable) ∧
  (_nodes w ≠ [] → ready_nodes w = [] → get_node guild_id w = Raise NoReadyNodes) ∧
  NoNodesAvailable ≠ NoReadyNodes.
Proof.
  split; [|split].
  - intros E. unfold get_node. by rewrite E.
  - intros NE NR. unfold get_node.
    rewrite (scan_none_ready _ _ _ _ _ NR).
    by destruct (_nodes w).
  - discriminate.
Qed.

Lemma get_node_failures_witness :
  get_node 5 System.init = Raise NoNodesAvailable ∧
  get_node 5 {| objects := objects Sample.owner_down; _nodes := [(0, [5%Z])] |}
    = Raise NoReadyNodes.
Proof.
  split.
  - apply (get_node_failures 5 System.init). reflexivity.
  - apply (get_node_failures 5); [discriminate | reflexivity].
Defined.

(** A lookup that finds a ready owner returns the first one and changes
    nothing. *)
Lemma get_node_found g w node rest :
  ready_owners g w = node :: rest → get_node g w = Ok (node, w).
Proof.
  intros E. unfold get_node.
  rewrite (scan_found _ _ _ _ _ _ _ E).
  destruct (_nodes w) eqn:E'; [|done].
  unfold ready_owners in E. by rewrite E' in E.
Qed.

(** C10: when some ready node already holds the guild id, [get_node] returns
    the first such node in registry order (the only one, when the id has one
    ready owner) and leaves the whole world, every assignment list included,
    as it was. *)
Theorem get_node_sticky_lookup (guild_id : Z) (w : World) :
  ready_owners guild_id w ≠ [] →
  ∃ node, head (ready_owners guild_id w) = Some node ∧
          get_node guild_id w = Ok (node, w).
Proof.
  intros NE. destruct (ready_owners guild_id w) as [|node rest] eqn:E; [done|].
  exists node. split; [done|]. by eapply get_node_found.
Qed.

Lemma get_node_sticky_lookup_witness :
  ∃ node, head (ready_owners 3 Sample.three_nodes) = Some node ∧
          get_node 3 Sample.three_nodes = Ok (node, Sample.three_nodes).
Proof. apply get_node_sticky_lookup. vm_compute. discriminate. Defined.

(** C7: for a guild id no node holds yet, [get_node] returns a ready node
    whose assignment list is strictly shorter than that of every ready node
    registered before it and no longer than that of every ready node
    registered after it, and appends the id to that node's list (some ready
    node being below the [1e10] sentinel of the search). *)
Theorem get_node_least_loaded (guild_id : Z) (w : World) :
  NoDup (keys (_nodes w)) →
  owners guild_id w = [] →
  (∃ m l, (m, l) ∈ _nodes w ∧ is_set (objects w) m = true ∧
          (Z.of_nat (length l) < guild_count0)%Z) →
  ∃ pre node ids post,
    _nodes w = pre ++ (node, ids) :: post ∧
    is_set (objects w) node = true ∧
    (∀ m l, (m, l) ∈ pre → is_set (objects w) m = true → length ids < length l) ∧
    (∀ m l, (m, l) ∈ post → is_set (objects w) m = true → length ids ≤ length l) ∧
    get_node guild_id w =
      Ok (node, {| objects := objects w;
                   _nodes := pre ++ (node, ids ++ [guild_id]) :: post |}).
Proof.
  intros ND Hfresh (m & l & Hin & Hm & Hl).
  destruct (scan_least_used (objects w) guild_id (_nodes w) guild_count0 None)
    as [[_ Hall]|(pre & node & ids & post & E & Hr & _ & Hpre & Hpost & Hscan)].
  { by apply owners_ready_owners. }
  { specialize (Hall m l Hin Hm). lia. }
  exists pre, node, ids, post. repeat split; try done.
  unfold get_node. rewrite Hscan. rewrite E in ND |- *.
  rewrite dict_alter_split; [|by eapply NoDup_keys_split].
  by destruct pre.
Qed.

Lemma get_node_least_loaded_witness :
  ∃ pre node ids post,
    _nodes Sample.three_nodes = pre ++ (node, ids) :: post ∧
    is_set (objects Sample.three_nodes) node = true ∧
    (∀ m l, (m, l) ∈ pre → is_set (objects Sample.three_nodes) m = true →
            length ids < length l) ∧
    (∀ m l, (m, l) ∈ post → is_set (objects Sample.three_nodes) m = true →
            length ids ≤ length l) ∧
    get_node 4 Sample.three_nodes =
      Ok (node, {| objects := objects Sample.three_nodes;
                   _nodes := pre ++ (node, ids ++ [4%Z]) :: post |}).
Proof.
  apply (get_node_least_loaded 4 Sample.three_nodes).
  - apply (bool_decide_unpack _). by vm_compute.
  - reflexivity.
  - exists 1, [3%Z]. split; [|split]; [|reflexivity|reflexivity].
    apply (bool_decide_unpack _). by vm_compute.
Defined.

End RegistryProofs.

(** ** Sessions *)

Module SessionProofs.
Import Session.

(** *** Field bookkeeping *)

Lemma set_wire_set_wire a b n : set_wire a (set_wire b n) = set_wire a n.
Proof. done. Qed.

Lemma set_ready_set_ready a b n : set_ready a (set_ready b n) = set_ready a n.
Proof. done. Qed.

Lemma set_wire_same n : set_wire (wire n) n = n.
Proof. by destruct n. Qed.

Lemma socket_now_fields b n :
  ready (socket_now b n) = ready n ∧
  _is_shutdown (socket_now b n) = _is_shutdown n ∧
  _queue (socket_now b n) = _queue n ∧
  wire (socket_now b n) = wire n ∧
  _players (socket_now b n) = _players n.
Proof. unfold socket_now. by destruct (_ws n). Qed.

Lemma send_fields data n :
  ready (send data n) = ready n ∧
  _is_shutdown (send data n) = _is_shutdown n ∧
  _ws (send data n) = _ws n ∧
  _players (send data n) = _players n.
Proof. unfold send. by destruct (no_open_socket n). Qed.

Lemma socket_now_open u n :
  _ws n = Some {| peer := u; open := true |} → socket_now true n = n.
Proof. unfold socket_now. intros H. destruct n; simpl in *. by subst. Qed.

(** *** The backlog loop *)

(** The loop touches neither [ready] nor [_is_shutdown]. *)
Lemma flush_flags fuel alive : ∀ i n mids r,
  flush fuel alive i n = (mids, r) →
  (∀ m, m ∈ mids → ready m = ready n ∧ _is_shutdown m = _is_shutdown n) ∧
  (∀ n', r = Some n' → ready n' = ready n ∧ _is_shutdown n' = _is_shutdown n).
Proof.
  induction fuel as [|fuel IH]; intros i n mids r; simpl.
  { intros [= <- <-]. split; [|done]. intros m H. by apply elem_of_nil in H. }
  destruct (_queue n !! i) as [data|].
  2:{ intros [= <- <-]. split; [|by intros ? [= <-]].
      intros m H. by apply elem_of_nil in H. }
  destruct (flush fuel alive (S i) _) as [mids' r'] eqn:E. intros [= <- <-].
  destruct (IH _ _ _ _ E) as [Hm Hr].
  pose proof (send_fields data (socket_now (alive i) n)) as (Hs1 & Hs2 & _).
  pose proof (socket_now_fields (alive i) n) as (Hn1 & Hn2 & _).
  split.
  - intros m [->|Hin]%elem_of_cons; [split; congruence|].
    destruct (Hm m Hin). split; congruence.
  - intros n' ->. destruct (Hr n' eq_refl). split; congruence.
Qed.


(** With the socket staying open the loop ends within [length _queue]
    iterations, having put the rest of the queue on the wire in order and
    left the queue as it was. *)
Lemma flush_steady u alive fuel : ∀ i n,
  (∀ k, alive k = true) →
  _ws n = Some {| peer := u; open := true |} →
  length (_queue n) - i < fuel →
  ∃ mids, flush fuel alive i n =
          (mids, Some (set_wire (wire n ++ drop i (_queue n)) n)).
Proof.
  induction fuel as [|fuel IH]; intros i n Ha Hws Hlen; simpl.
  { lia. }
  destruct (_queue n !! i) as [data|] eqn:Hi.
  - rewrite Ha, (socket_now_open u) by done.
    assert (send data n = set_wire (wire n ++ [data]) n) as ->.
    { unfold send, no_open_socket. by rewrite Hws. }
    destruct (IH (S i) (set_wire (wire n ++ [data]) n) Ha Hws) as [mids ->].
    { simpl. apply lookup_lt_Some in Hi. lia. }
    exists (set_wire (wire n ++ [data]) n :: mids). simpl.
    rewrite set_wire_set_wire, <- (assoc_L (++)). simpl.
    by rewrite (drop_S _ _ _ Hi).
  - apply lookup_ge_None in Hi. exists [].
    by rewrite drop_ge, app_nil_r, set_wire_same.
Qed.

(** *** [disconnect] *)

Lemma dict_get_set {V} (k : node_id) (v : V) d : dict_get k (dict_set k v d) = Some v.
Proof.
  induction d as [|[k' v'] d IH]; simpl.
  - by rewrite decide_True.
  - destruct (decide (k' = k)) as [->|Hne]; simpl.
    + by rewrite decide_True.
    + by rewrite decide_False.
Qed.




(** With the socket closed, each player's destroy command lands in the
    queue, and the set of players ends up empty. *)
Lemma destroy_players_closed ps : ∀ n,
  no_open_socket n = true →
  _players n = ps →
  destroy_players ps n =
  set_players [] (set_queue (_queue n ++ ((λ p, DESTROY (guild p)) <$> ps)) n).
Proof.
  induction ps as [|p ps IH]; intros n Hw Hp; simpl.
  - rewrite app_nil_r. destruct n; simpl in *. by subst.
  - unfold Player_destroy, destroy_guild, send. simpl.
    replace (no_open_socket (set_players ps n)) with (no_open_socket n) by done.
    rewrite Hw, IH by done. simpl.
    unfold set_players, set_queue. simpl. by rewrite <- (assoc_L (++)).
Qed.

(** After the conditional [close] the session has no open socket. *)
Lemma closed_after_close n :
  no_open_socket (if negb (no_open_socket n) then socket_now false n else n) = true.
Proof.
  destruct (no_open_socket n) eqn:E; simpl; [done|].
  unfold no_open_socket, socket_now in *. by destruct (_ws n).
Qed.

Lemma disconnect_fields self n reg :
  let n' := (disconnect self n reg).1 in
  _is_shutdown n' = true ∧ ready n' = false ∧ no_open_socket n' = true ∧
  _players n' = [] ∧
  _queue n' = _queue n ++ ((λ p, DESTROY (guild p)) <$> _players n) ∧
  wire n' = wire n.
Proof.
  unfold disconnect. simpl.
  set (n2 := set_ready false (set_is_shutdown true n)).
  pose proof (closed_after_close n2) as Hc.
  set (n3 := if negb (no_open_socket n2) then socket_now false n2 else n2) in *.
  assert (_is_shutdown n3 = true ∧ ready n3 = false ∧ _queue n3 = _queue n ∧
          wire n3 = wire n ∧ _players n3 = _players n) as (Hs & Hr & Hq & Hwi & Hp).
  { subst n3. destruct (no_open_socket n2); simpl; [done|].
    by pose proof (socket_now_fields false n2) as (-> & -> & -> & -> & ->). }
  rewrite destroy_players_closed by done. simpl.
  rewrite Hq, Hp. repeat split; done.
Qed.




Section with_backoff.
Context {Backoff : Type} (EB : Backoff) (delay : Backoff → nat * Backoff).

(** *** The race *)

(** A socket returned by an attempt task is open and leads to the task's
    endpoint. *)
Lemma retry_socket u n script : ∀ backoff attempt now ncalls sleeps ws,
  ended (retry delay u n script backoff attempt now ncalls sleeps) = Return (Some ws) →
  ws = {| peer := u; open := true |}.
Proof.
  induction script as [|a script IH]; intros backoff attempt now ncalls sleeps ws;
    simpl; destruct (negb (_is_shutdown n) && no_open_socket n); simpl; try done.
  destruct (ends a); simpl; try done.
  - by intros [= <-].
  - destruct (delay backoff) as [d backoff']. apply IH.
Qed.

Lemma await_task_socket timeout t ws :
  await_task timeout t = Got (Some ws) → ended t = Return (Some ws).
Proof.
  unfold await_task. destruct (ended t), timeout; try done;
    try (destruct (bool_decide _); try done); by intros [= ->].
Qed.

Lemma race_pair x y :
  race [x; y] = NoBreak ↔
  (∀ ws, x ≠ Got (Some ws)) ∧ x ≠ Forever ∧
  (∀ ws, y ≠ Got (Some ws)) ∧ y ≠ Forever.
Proof.
  destruct x as [[?|]| | |], y as [[?|]| | |]; simpl; split;
    try done; intros (H1 & H2 & H3 & H4); exfalso;
    first [by apply H2 | by apply H4 | by eapply H1 | by eapply H3].
Qed.

Lemma race_pair_break x y ws :
  race [x; y] = Break ws → x = Got (Some ws) ∨ y = Got (Some ws).
Proof.
  destruct x as [[?|]| | |], y as [[?|]| | |]; simpl; try done;
    intros [= ->]; eauto.
Qed.

Lemma await_task_in_time d t ws :
  await_task (Some d) t = Got ws → at_time t < d.
Proof.
  unfold await_task. destruct (ended t); try done; by case_bool_decide.
Qed.

Lemma await_task_forever timeout t :
  await_task timeout t = Forever → timeout = None ∧ ended t = Retrying.
Proof.
  unfold await_task. destruct (ended t), timeout; try done; by case_bool_decide.
Qed.

Lemma await_task_wins timeout t ws :
  ended t = Return (Some ws) →
  (∀ d, timeout = Some d → at_time t < d) →
  await_task timeout t = Got (Some ws).
Proof.
  unfold await_task. intros -> Hd. destruct timeout as [d|]; [|done].
  by rewrite bool_decide_eq_true_2 by auto.
Qed.

(** An awaited task neither breaks the loop nor blocks it exactly when it
    does not win and, absent a deadline, has ended. *)
Lemma await_task_quiet timeout t :
  (∀ ws, await_task timeout t ≠ Got (Some ws)) ∧ await_task timeout t ≠ Forever ↔
  ¬ wins timeout t ∧ (timeout = None → ended t ≠ Retrying).
Proof.
  split.
  - intros [Hgot Hfor]. split.
    + intros (ws & He & Hd). by apply (Hgot ws), await_task_wins.
    + intros -> He. apply Hfor. unfold await_task. by rewrite He.
  - intros [Hwin Hret]. split.
    + intros ws Ha. apply Hwin. exists ws. split; [by eapply await_task_socket|].
      intros d ->. by eapply await_task_in_time.
    + intros [-> He]%await_task_forever. by apply Hret.
Qed.

(** *** [_multi_try_connect] *)

(** A run of [OSError]s is slept through, one generator delay per failure,
    and the loop goes on with what is left of the script. *)
Lemma retry_failures u n fails : ∀ rest backoff attempt now ncalls sleeps,
  _is_shutdown n = false →
  no_open_socket n = true →
  Forall (λ a, ends a = OSError) fails →
  ∃ backoff' now',
    retry delay u n (fails ++ rest) backoff attempt now ncalls sleeps =
    retry delay u n rest backoff' (attempt + length fails) now'
          (ncalls + length fails) (sleeps ++ delays delay backoff (length fails)).
Proof.
  induction fails as [|a fails IH]; intros rest backoff attempt now ncalls sleeps Hs Hw HF.
  { exists backoff, now. simpl. by rewrite !Nat.add_0_r, app_nil_r. }
  apply Forall_cons in HF as [Ha HF]. simpl. rewrite Hs, Hw, Ha. simpl.
  destruct (delay backoff) as [d backoff'] eqn:Ed. simpl.
  destruct (IH rest backoff' (S attempt) (now + took a + d) (S ncalls)
               (sleeps ++ [d]) Hs Hw HF) as (b & t & ->).
  exists b, t. f_equal; [lia | lia | by rewrite <- (assoc_L (++))].
Qed.

(** Whatever is scripted after a call that does not raise [OSError] is
    never used. *)
Lemma retry_cut u n fails a rest : ∀ backoff attempt now ncalls sleeps,
  Forall (λ a, ends a = OSError) fails →
  ends a ≠ OSError →
  retry delay u n (fails ++ a :: rest) backoff attempt now ncalls sleeps =
  retry delay u n (fails ++ [a]) backoff attempt now ncalls sleeps.
Proof.
  induction fails as [|b fails IH]; intros backoff attempt now ncalls sleeps HF Ha; simpl.
  - destruct (negb (_is_shutdown n) && no_open_socket n); [|done].
    by destruct (ends a).
  - apply Forall_cons in HF as [Hb HF].
    destruct (negb (_is_shutdown n) && no_open_socket n); [|done].
    rewrite Hb. destruct (delay backoff). by apply IH.
Qed.

(** C5: in an attempt task of [connect]'s race whose loop test holds (no
    shutdown, no open socket), every [OSError] is swallowed and followed by
    one sleep of the next backoff delay and one more call, for any number of
    failures in a row: after [k] failures the task has neither returned nor
    raised and is about to make call [k + 1].  A call that then opens a
    socket makes the task return it; a call rejected with
    [InvalidStatusCode] makes the task return [None] at once: no sleep and
    no further call follow, whatever else the endpoint would have answered. *)
Theorem transient_failures_retried u n fails a rest :
  _is_shutdown n = false →
  no_open_socket n = true →
  Forall (λ a, ends a = OSError) fails →
  let k := length fails in
  let still := _multi_try_connect EB delay u n fails in
  let t := _multi_try_connect EB delay u n (fails ++ a :: rest) in
  (ended still = Retrying ∧ calls still = k ∧ attempt_no still = S k ∧
   slept still = delays delay EB k) ∧
  (ends a = Opened →
   ended t = Return (Some {| peer := u; open := true |}) ∧
   calls t = S k ∧ slept t = delays delay EB k) ∧
  (ends a = InvalidStatusCode →
   ended t = Return None ∧ calls t = S k ∧ attempt_no t = S k ∧
   slept t = delays delay EB k ∧
   t = _multi_try_connect EB delay u n (fails ++ [a])).
Proof.
  intros Hs Hw HF k still t. subst still t. unfold _multi_try_connect.
  split; [|split].
  - destruct (retry_failures u n fails [] EB 1 0 0 [] Hs Hw HF) as (b & c & E).
    rewrite app_nil_r in E. rewrite E. simpl. rewrite Hs, Hw. simpl. repeat split; lia.
  - intros Ha.
    destruct (retry_failures u n fails (a :: rest) EB 1 0 0 [] Hs Hw HF) as (b & c & ->).
    simpl. rewrite Hs, Hw, Ha. simpl. repeat split; lia.
  - intros Ha.
    rewrite (retry_cut u n fails a rest) by (done || by rewrite Ha).
    destruct (retry_failures u n fails [a] EB 1 0 0 [] Hs Hw HF) as (b & c & ->).
    simpl. rewrite Hs, Hw, Ha. simpl. repeat split; lia.
Qed.

(** *** [connect] *)

(** The socket that ends the race is an open one. *)
Lemma race_socket timeout n sa sb ws :
  race (as_completed timeout (_multi_try_connect EB delay combo_uri n sa)
                             (_multi_try_connect EB delay dedicated_uri n sb))
    = Break ws →
  ∃ u, ws = {| peer := u; open := true |}.
Proof.
  unfold as_completed. destruct (completes_before _ _);
    intros [H|H]%race_pair_break; apply await_task_socket in H;
    apply retry_socket in H; eauto.
Qed.

(** With a socket won and staying open, [connect] returns once the queue
    has been walked: the whole queue is on the wire, in order, and the queue
    itself is left as it was. *)
Lemma connect_returns self timeout env fuel n reg ws :
  race (as_completed timeout
          (_multi_try_connect EB delay combo_uri (set_is_shutdown false n) (combo_script env))
          (_multi_try_connect EB delay dedicated_uri (set_is_shutdown false n)
             (dedicated_script env))) = Break ws →
  (∀ k, alive env k = true) →
  length (_queue n) < fuel →
  let r := connect EB delay self timeout env fuel n reg in
  how r = Returns ∧
  final r =
    (set_ready true
       (set_wire (wire n ++ _queue n)
          (set_listener_task (S (_listener_task n))
             (set_ws (Some ws) (set_is_shutdown false n)))),
     dict_set self [] reg).
Proof.
  intros Hrace Ha Hlen. unfold connect. simpl. rewrite Hrace.
  destruct (race_socket _ _ _ _ _ Hrace) as [u ->].
  edestruct (flush_steady u (alive env) fuel 0) as [mids ->]; [done|..|done].
  - done.
  - simpl. lia.
Qed.


(** C6 (as amended): [connect] raises [asyncio.TimeoutError] exactly when
    neither attempt task returns a socket before the deadline, if there is
    one, and, if there is none, both tasks have ended (handshake rejected,
    an error other than [OSError], or nothing to do because the session has
    an open socket already); the session is then left as it was but for the
    cleared shutdown flag, and the registry untouched. *)
Theorem connect_timeout_iff self timeout env fuel n reg :
  let n1 := set_is_shutdown false n in
  let ta := _multi_try_connect EB delay combo_uri n1 (combo_script env) in
  let tb := _multi_try_connect EB delay dedicated_uri n1 (dedicated_script env) in
  let r := connect EB delay self timeout env fuel n reg in
  (how r = Raises TimeoutError ↔
     ¬ wins timeout ta ∧ ¬ wins timeout tb ∧
     (timeout = None → ended ta ≠ Retrying ∧ ended tb ≠ Retrying)) ∧
  (how r = Raises TimeoutError → final r = (n1, reg)).
Proof.
  intros n1 ta tb r.
  assert (how r = Raises TimeoutError ↔ race (as_completed timeout ta tb) = NoBreak) as Hhow.
  { subst r. unfold connect. simpl. fold n1 ta tb.
    destruct (race _); simpl; [|done..].
    destruct (flush _ _ _ _) as [mids [n4|]]; simpl; done. }
  split.
  - rewrite Hhow. unfold as_completed. destruct (completes_before tb ta);
      rewrite race_pair;
      pose proof (await_task_quiet timeout ta) as Qa;
      pose proof (await_task_quiet timeout tb) as Qb; tauto.
  - intros H. apply Hhow in H. subst r. unfold connect. simpl. fold n1 ta tb.
    by rewrite H.
Qed.


End with_backoff.

(** C1: a frame queued before the first connect is put on the wire by that
    connect and again by the next one, because [connect] walks the queue
    without ever emptying it: with [play7] queued before the first connect
    and [stop7] queued after the socket was lost, the wire carries [play7],
    [play7], [stop7] and not [play7], [stop7]. *)
Theorem backlog_resent_on_reconnect :
  how Sample.first_connect = Returns ∧
  wire (final Sample.first_connect).1 = [Sample.play7] ∧
  _queue (final Sample.first_connect).1 = [Sample.play7] ∧
  _queue Sample.dropped = [Sample.play7; Sample.stop7] ∧
  how Sample.second_connect = Returns ∧
  wire (final Sample.second_connect).1 = [Sample.play7; Sample.play7; Sample.stop7] ∧
  wire (final Sample.second_connect).1 ≠ [Sample.play7; Sample.stop7].
Proof. repeat split. discriminate. Qed.


(** C6 (as stated) fails: with no timeout given, [connect] raises
    [asyncio.TimeoutError] when both endpoints reject the handshake. *)
Lemma connect_times_out_without_timeout :
  how (connect 0 Sample.doubling 0 None Sample.both_reject 8 __init__ [])
  = Raises TimeoutError.
Proof. reflexivity. Qed.

Lemma connect_timeout_iff_witness :
  final (connect 0 Sample.doubling 0 (Some 3) Sample.unreachable 8 __init__ [])
  = (set_is_shutdown false __init__, []).
Proof.
  apply (proj2 (connect_timeout_iff 0 Sample.doubling 0 (Some 3) Sample.unreachable
                  8 __init__ [])).
  reflexivity.
Defined.


Lemma transient_failures_retried_witness :
  let fails := combo_script Sample.unreachable in
  let still := _multi_try_connect 0 Sample.doubling combo_uri __init__ fails in
  let won := _multi_try_connect 0 Sample.doubling combo_uri __init__
               (fails ++ [Sample.quick Opened]) in
  let rejected := _multi_try_connect 0 Sample.doubling combo_uri __init__
                    (fails ++ [Sample.quick InvalidStatusCode; Sample.quick Opened]) in
  (ended still = Retrying ∧ calls still = 2 ∧ attempt_no still = 3 ∧
   slept still = [1; 2]) ∧
  (ended won = Return (Some {| peer := combo_uri; open := true |}) ∧
   calls won = 3 ∧ slept won = [1; 2]) ∧
  (ended rejected = Return None ∧ calls rejected = 3 ∧ attempt_no rejected = 3 ∧
   slept rejected = [1; 2]).
Proof.
  assert (Forall (λ a, ends a = OSError) (combo_script Sample.unreachable)) as HF
    by (repeat constructor).
  split; [|split].
  - exact (proj1 (transient_failures_retried 0 Sample.doubling combo_uri __init__
                    (combo_script Sample.unreachable) (Sample.quick Opened) []
                    eq_refl eq_refl HF)).
  - exact (proj1 (proj2 (transient_failures_retried 0 Sample.doubling combo_uri
                           __init__ (combo_script Sample.unreachable)
                           (Sample.quick Opened) [] eq_refl eq_refl HF)) eq_refl).
  - destruct (proj2 (proj2 (transient_failures_retried 0 Sample.doubling combo_uri
                              __init__ (combo_script Sample.unreachable)
                              (Sample.quick InvalidStatusCode) [Sample.quick Opened]
                              eq_refl eq_refl HF)) eq_refl) as (H1 & H2 & H3 & H4 & _).
    exact (conj H1 (conj H2 (conj H3 H4))).
Defined.

End SessionProofs.

(** ** The registry over time *)

Module SystemProofs.
Import Session Registry System.



Lemma owners_in_keys g reg m : m ∈ owners_in g reg → m ∈ keys reg.
Proof.
  unfold owners_in, keys. induction reg as [|[k v] reg IH]; simpl; [done|].
  destruct (bool_decide (g ∈ v)); simpl.
  - intros [->|?]%elem_of_cons; [left|right; eauto].
  - right. eauto.
Qed.

Lemma owners_in_cons g k v reg :
  owners_in g ((k, v) :: reg) =
  if bool_decide (g ∈ v) then k :: owners_in g reg else owners_in g reg.
Proof. unfold owners_in. simpl. by destruct (bool_decide (g ∈ v)). Qed.


Lemma owners_in_dict_set_self g i reg :
  NoDup (keys reg) → i ∉ owners_in g (dict_set i [] reg).
Proof.
  induction reg as [|[k v] reg IH]; simpl.
  - intros _. rewrite owners_in_cons, bool_decide_eq_false_2 by apply not_elem_of_nil.
    apply not_elem_of_nil.
  - intros [Hk ND]%NoDup_cons.
    destruct (decide (k = i)) as [->|Hne]; rewrite owners_in_cons.
    + rewrite bool_decide_eq_false_2 by apply not_elem_of_nil.
      intros Hin. by apply Hk, (owners_in_keys g).
    + destruct (bool_decide (g ∈ v)); [|by apply IH].
      apply not_elem_of_cons. split; [done|by apply IH].
Qed.




Lemma keys_dict_alter {V} (f : V → V) (k : node_id) reg :
  keys (dict_alter f k reg) = keys reg.
Proof.
  unfold keys. induction reg as [|[k' v] reg IH]; simpl; [done|].
  destruct (decide (k' = k)); simpl; [done|]. f_equal. apply IH.
Qed.

Import RegistryProofs SessionProofs.




Section with_backoff.
Context {Backoff : Type} (EB : Backoff) (delay : Backoff → nat * Backoff).










End with_backoff.




End SystemProofs.

(** * Further properties of [node.py] *)

(** ** [get_node], [join_voice] and the module-level [disconnect] *)

Module RegistryMore.
Import Session Registry System Notions Commands.
Import RegistryProofs SessionProofs SystemProofs.

Lemma dict_get_elem {V} (k : node_id) (v : V) (d : list (node_id * V)) :
  NoDup (keys d) → (k, v) ∈ d → dict_get k d = Some v.
Proof.
  induction d as [|[k' v'] d IH]; simpl; intros ND Hin.
  { by apply elem_of_nil in Hin. }
  apply NoDup_cons in ND as [Hk ND].
  apply elem_of_cons in Hin as [[= -> ->]|Hin].
  - by rewrite decide_True.
  - rewrite decide_False; [by apply IH|].
    intros ->. apply Hk. unfold keys. apply list_elem_of_fmap. by exists (k, v).
Qed.

Lemma dict_get_alter_ne {V} (f : V → V) (k j : node_id) (d : list (node_id * V)) :
  j ≠ k → dict_get j (dict_alter f k d) = dict_get j d.
Proof.
  intros Hne. induction d as [|[k' v'] d IH]; simpl; [done|].
  destruct (decide (k' = k)) as [->|?]; simpl.
  - by rewrite !decide_False by done.
  - destruct (decide (k' = j)); [done|apply IH].
Qed.

(** A ready owner is a ready node of the registry whose list holds the id. *)
Lemma ready_owners_in_elem objs g items m :
  m ∈ ready_owners_in objs g items →
  is_set objs m = true ∧ ∃ ids, (m, ids) ∈ items ∧ g ∈ ids.
Proof.
  induction items as [|[k v] items IH]; rewrite ?ready_owners_in_cons.
  { intros H. by apply elem_of_nil in H. }
  destruct (bool_decide (g ∈ v)) eqn:Hg, (is_set objs k) eqn:Hk; simpl;
    try (intros H; destruct (IH H) as (? & ids & ? & ?); split; [done|];
         exists ids; split; [by right|done]).
  intros [->|H]%elem_of_cons.
  - split; [done|]. exists v. split; [left|]. by apply bool_decide_eq_true in Hg.
  - destruct (IH H) as (? & ids & ? & ?). split; [done|].
    exists ids. split; [by right|done].
Qed.

(** X1: a [get_node] that returns gives a ready node, leaves the session
    objects, the order of the registry and the lists of the other nodes as
    they were, and either found the guild in the list of that node and
    changed nothing, or found it with no ready node and put it at the end
    of that list. *)
Theorem get_node_postcondition g w node w' :
  NoDup (keys (_nodes w)) →
  get_node g w = Ok (node, w') →
  objects w' = objects w ∧
  keys (_nodes w') = keys (_nodes w) ∧
  is_set (objects w) node = true ∧
  (∀ k, k ≠ node → dict_get k (_nodes w') = dict_get k (_nodes w)) ∧
  ∃ ids, dict_get node (_nodes w) = Some ids ∧
         ((g ∈ ids ∧ w' = w) ∨
          (ready_owners g w = [] ∧ dict_get node (_nodes w') = Some (ids ++ [g]))).
Proof.
  intros ND. unfold get_node.
  destruct (_nodes w) as [|e r] eqn:E; [done|]. rewrite <- E in *.
  destruct (scan _ _ _ _ _) as [m|[lu|]] eqn:Hs; intros [= <- <-]; simpl.
  - apply scan_inl_head in Hs.
    destruct (ready_owners_in (objects w) g (_nodes w)) as [|m' rest] eqn:HR; [done|].
    injection Hs as ->.
    destruct (ready_owners_in_elem (objects w) g (_nodes w) m) as (Hr & ids & Hin & Hg).
    { rewrite HR. left. }
    repeat split; try done. exists ids. split; [by apply dict_get_elem|]. by left.
  - pose proof (scan_inr_no_owner _ _ _ _ _ _ Hs) as HR.
    destruct (scan_least_used (objects w) g (_nodes w) guild_count0 None HR)
      as [[Hs' _]|(pre & m & ids & post & E' & Hr & _ & _ & _ & Hs')];
      rewrite Hs' in Hs; [done|]. injection Hs as <-.
    split; [done|]. split; [apply keys_dict_alter|]. split; [done|]. split.
    + intros k Hk. by apply dict_get_alter_ne.
    + exists ids. rewrite E' in ND |- *.
      pose proof (NoDup_keys_split _ _ _ _ ND) as Hpre.
      split.
      * apply dict_get_elem; [done|]. apply elem_of_app. right. left.
      * right. split; [done|]. rewrite dict_alter_split by done.
        apply dict_get_elem.
        -- unfold keys in *. rewrite fmap_app in *. simpl in *. done.
        -- apply elem_of_app. right. left.
Qed.

Lemma get_node_postcondition_witness :
  ∃ ids, dict_get 2 (_nodes Inputs.balanced_world) = Some ids ∧
         ((5%Z ∈ ids ∧
           {| objects := objects Inputs.balanced_world;
              _nodes := [(0, [1%Z]); (1, [2%Z]); (2, [5%Z])] |} = Inputs.balanced_world) ∨
          (ready_owners 5 Inputs.balanced_world = [] ∧
           dict_get 2 [(0, [1%Z]); (1, [2%Z]); (2, [5%Z])] = Some (ids ++ [5%Z]))).
Proof.
  refine (proj2 (proj2 (proj2 (proj2
    (get_node_postcondition 5 Inputs.balanced_world 2
       {| objects := objects Inputs.balanced_world;
          _nodes := [(0, [1%Z]); (1, [2%Z]); (2, [5%Z])] |} _ _))))).
  - apply (bool_decide_unpack _). by vm_compute.
  - reflexivity.
Defined.

(** A lookup that finds no ready owner appends the id to the list of the
    earliest ready node of least load. *)
Lemma get_node_fresh_split g w node w' :
  NoDup (keys (_nodes w)) →
  ready_owners g w = [] →
  get_node g w = Ok (node, w') →
  ∃ pre ids post,
    _nodes w = pre ++ (node, ids) :: post ∧
    is_set (objects w) node = true ∧
    (∀ m l, (m, l) ∈ pre → is_set (objects w) m = true → length ids < length l) ∧
    (∀ m l, (m, l) ∈ post → is_set (objects w) m = true → length ids ≤ length l) ∧
    w' = {| objects := objects w; _nodes := pre ++ (node, ids ++ [g]) :: post |}.
Proof.
  intros ND HR. unfold get_node.
  destruct (_nodes w) as [|e r] eqn:E; [done|]. rewrite <- E in *.
  destruct (scan_least_used (objects w) g (_nodes w) guild_count0 None HR)
    as [[-> _]|(pre & m & ids & post & E' & Hr & _ & Hpre & Hpost & ->)]; [done|].
  intros [= <- <-]. exists pre, ids, post. repeat split; try done.
  rewrite E' in ND |- *. rewrite dict_alter_split; [done|].
  by eapply NoDup_keys_split.
Qed.

(** X2: when the loads of the ready nodes differ by at most one, they
    still do after [get_node] has assigned a guild that no ready node
    held. *)
Theorem get_node_keeps_balance g w node w' :
  NoDup (keys (_nodes w)) →
  balanced w →
  ready_owners g w = [] →
  get_node g w = Ok (node, w') →
  balanced w'.
Proof.
  intros ND Hb HR Hg.
  destruct (get_node_fresh_split g w node w' ND HR Hg)
    as (pre & ids & post & E & Hr & Hpre & Hpost & ->).
  assert ((node, ids) ∈ _nodes w) as Hnode.
  { rewrite E. apply elem_of_app. right. left. }
  assert (∀ m l, (m, l) ∈ pre ++ (node, ids ++ [g]) :: post →
                 (m, l) ∈ _nodes w ∨ (m = node ∧ l = ids ++ [g])) as Hsplit.
  { intros m l [Hin|[[= -> ->]|Hin]%elem_of_cons]%elem_of_app.
    - left. rewrite E. apply elem_of_app. by left.
    - by right.
    - left. rewrite E. apply elem_of_app. right. by right. }
  assert (∀ m l, (m, l) ∈ _nodes w → is_set (objects w) m = true →
                 length ids ≤ length l) as Hmin.
  { intros m l Hin Hm. rewrite E in Hin.
    apply elem_of_app in Hin as [Hin|[[= -> ->]|Hin]%elem_of_cons].
    - specialize (Hpre m l Hin Hm). lia.
    - done.
    - by apply (Hpost m l). }
  intros m1 l1 m2 l2 H1 H2 Hr1 Hr2. simpl in *.
  destruct (Hsplit m1 l1 H1) as [O1|[-> ->]], (Hsplit m2 l2 H2) as [O2|[-> ->]].
  - by apply (Hb m1 l1 m2 l2).
  - rewrite length_app. simpl. specialize (Hb m1 l1 node ids O1 Hnode Hr1 Hr). lia.
  - rewrite length_app. simpl. specialize (Hmin m2 l2 O2 Hr2). lia.
  - lia.
Qed.

Lemma get_node_keeps_balance_witness :
  balanced {| objects := objects Inputs.balanced_world;
              _nodes := [(0, [1%Z]); (1, [2%Z]); (2, [5%Z])] |}.
Proof.
  apply (get_node_keeps_balance 5 Inputs.balanced_world 2).
  - apply (bool_decide_unpack _). by vm_compute.
  - intros m1 l1 m2 l2 H1 H2 _ _.
    assert (∀ m l, (m, l) ∈ _nodes Inputs.balanced_world → length l ≤ 1) as Hle.
    { intros m l H. simpl in H.
      repeat (apply elem_of_cons in H as [[= -> ->]|H]; [simpl; lia|]).
      by apply elem_of_nil in H. }
    specialize (Hle m1 l1 H1). lia.
  - reflexivity.
  - reflexivity.
Defined.

(** X3: [join_voice] for a guild goes through the node that [get_node]
    bound it to: asked a second time, it uses the same node and leaves the
    registry as the first call left it. *)
Theorem join_voice_same_node g c1 c2 w v1 w1 :
  join_voice g c1 w = Ok (v1, w1) →
  is_set (objects w1) (via v1) = true ∧
  join_voice g c2 w1 = Ok ({| via := via v1; for_guild := g; to_channel := c2 |}, w1).
Proof.
  unfold join_voice. destruct (get_node g w) as [[node w']|e] eqn:Hg; [|done].
  intros [= <- <-]. simpl. apply get_node_head in Hg.
  destruct (ready_owners g w') as [|m rest] eqn:HR; [done|]. injection Hg as ->.
  split.
  - apply (ready_owners_in_elem (objects w') g (_nodes w') node).
    unfold ready_owners in HR. rewrite HR. left.
  - by rewrite (get_node_found g w' node rest HR).
Qed.

Lemma join_voice_same_node_witness :
  is_set (objects Inputs.balanced_world) 2 = true ∧
  join_voice 5 10 {| objects := objects Inputs.balanced_world;
                     _nodes := [(0, [1%Z]); (1, [2%Z]); (2, [5%Z])] |}
  = Ok ({| via := 2; for_guild := 5; to_channel := 10 |},
        {| objects := objects Inputs.balanced_world;
           _nodes := [(0, [1%Z]); (1, [2%Z]); (2, [5%Z])] |}).
Proof.
  apply (join_voice_same_node 5 9 10 Inputs.balanced_world
           {| via := 2; for_guild := 5; to_channel := 9 |}
           {| objects := objects Inputs.balanced_world;
              _nodes := [(0, [1%Z]); (1, [2%Z]); (2, [5%Z])] |}).
  reflexivity.
Defined.

(** Popping every key of a dict, in order, empties it. *)
Lemma disconnect_fold reg : ∀ objs,
  NoDup (keys reg) →
  (∀ k, k ∈ keys reg → is_Some (objs !! k)) →
  ∃ objs',
    foldl (λ w node, on_node node (Session.disconnect node) w)
          {| objects := objs; _nodes := reg |} (keys reg)
    = {| objects := objs'; _nodes := [] |} ∧
    (∀ k n, k ∈ keys reg → objs !! k = Some n →
            objs' !! k = Some (Session.disconnect k n []).1) ∧
    (∀ k, k ∉ keys reg → objs' !! k = objs !! k).
Proof.
  induction reg as [|[k v] reg IH]; intros objs ND Hobj.
  { exists objs. repeat split; try done. intros k n H. by apply elem_of_nil in H. }
  change (keys ((k, v) :: reg)) with (k :: keys reg) in *.
  apply NoDup_cons in ND as [Hk ND].
  destruct (Hobj k) as [n Hn]; [left|].
  cbn [foldl].
  assert (on_node k (Session.disconnect k) {| objects := objs; _nodes := (k, v) :: reg |}
          = {| objects := <[k := (Session.disconnect k n []).1]> objs; _nodes := reg |})
    as ->.
  { unfold on_node. simpl. rewrite Hn. simpl. by rewrite decide_True. }
  destruct (IH (<[k := (Session.disconnect k n []).1]> objs) ND) as (objs' & -> & Hin & Hout).
  { intros k' Hk'. destruct (decide (k' = k)) as [->|Hne].
    - rewrite lookup_insert_eq. eauto.
    - rewrite lookup_insert_ne by done. apply Hobj. by right. }
  exists objs'. split; [done|]. split.
  - intros k' n' [->|Hk']%elem_of_cons Hn'.
    + rewrite Hout by done. rewrite lookup_insert_eq. congruence.
    + apply Hin; [done|]. rewrite lookup_insert_ne; [done|]. by intros ->.
  - intros k' [Hne Hk']%not_elem_of_cons.
    rewrite Hout by done. by rewrite lookup_insert_ne.
Qed.

(** X4: the module-level [disconnect] empties the registry and shuts down
    every registered session, and nothing else. *)
Theorem disconnect_all_empties w :
  NoDup (keys (_nodes w)) →
  (∀ k, k ∈ keys (_nodes w) → is_Some (objects w !! k)) →
  _nodes (Registry.disconnect w) = [] ∧
  (∀ k n, k ∈ keys (_nodes w) → objects w !! k = Some n →
          objects (Registry.disconnect w) !! k = Some (Session.disconnect k n []).1) ∧
  (∀ k, k ∉ keys (_nodes w) → objects (Registry.disconnect w) !! k = objects w !! k) ∧
  (∀ g, get_node g (Registry.disconnect w) = Raise NoNodesAvailable).
Proof.
  intros ND Hobj. unfold Registry.disconnect.
  destruct (disconnect_fold (_nodes w) (objects w) ND Hobj) as (objs' & E & Hin & Hout).
  destruct w as [objs reg]. simpl in *. rewrite E. simpl. done.
Qed.

Lemma disconnect_all_empties_witness :
  _nodes (Registry.disconnect Inputs.pool) = [] ∧
  objects (Registry.disconnect Inputs.pool) !! 0 = Some (Session.disconnect 0 Sample.busy []).1 ∧
  objects (Registry.disconnect Inputs.pool) !! 2 = Some __init__ ∧
  get_node 8 (Registry.disconnect Inputs.pool) = Raise NoNodesAvailable.
Proof.
  destruct (disconnect_all_empties Inputs.pool) as (H1 & H2 & H3 & H4).
  - apply (bool_decide_unpack _). by vm_compute.
  - intros k Hk. simpl in Hk.
    repeat (apply elem_of_cons in Hk as [->|Hk]; [by eexists|]).
    by apply elem_of_nil in Hk.
  - split; [exact H1|]. split; [|split; [|exact (H4 8%Z)]].
    + apply H2; [|reflexivity]. apply (bool_decide_unpack _). by vm_compute.
    + rewrite H3; [reflexivity|]. apply (bool_decide_unpack _). by vm_compute.
Defined.

End RegistryMore.

(** ** [send], [connect], [_reconnect] and [disconnect] together *)

Module SessionMore.
Import Session Registry System Notions Commands.
Import RegistryProofs SessionProofs SystemProofs.

Lemma set_queue_same n : set_queue (_queue n) n = n.
Proof. by destruct n. Qed.

Lemma send_all_closed fs : ∀ n,
  no_open_socket n = true → send_all fs n = set_queue (_queue n ++ fs) n.
Proof.
  unfold send_all. induction fs as [|data fs IH]; intros n Hw; simpl.
  - by rewrite app_nil_r, set_queue_same.
  - unfold send at 2. rewrite Hw, IH by done. simpl.
    unfold set_queue. simpl. by rewrite <- (assoc_L (++)).
Qed.

Lemma send_all_open fs : ∀ n,
  no_open_socket n = false → send_all fs n = set_wire (wire n ++ fs) n.
Proof.
  unfold send_all. induction fs as [|data fs IH]; intros n Hw; simpl.
  - by rewrite app_nil_r, set_wire_same.
  - unfold send at 2. rewrite Hw, IH by done. simpl.
    unfold set_wire. simpl. by rewrite <- (assoc_L (++)).
Qed.

(** X5: a burst of [send] calls goes, whole and in call order, to the end
    of the queue when the session has no open socket and to the end of the
    wire when it has one; nothing else of the session changes. *)
Theorem send_all_in_call_order fs n :
  (no_open_socket n = true → send_all fs n = set_queue (_queue n ++ fs) n) ∧
  (no_open_socket n = false → send_all fs n = set_wire (wire n ++ fs) n).
Proof. split; [apply send_all_closed|apply send_all_open]. Qed.

Lemma send_all_in_call_order_witness :
  send_all [Sample.play7; Sample.stop7] __init__
    = set_queue [Sample.play7; Sample.stop7] __init__ ∧
  send_all [Sample.play7; Sample.stop7] Inputs.connected
    = set_wire [Sample.play7; Sample.stop7] Inputs.connected.
Proof.
  split.
  - apply (proj1 (send_all_in_call_order [Sample.play7; Sample.stop7] __init__)).
    reflexivity.
  - apply (proj2 (send_all_in_call_order [Sample.play7; Sample.stop7] Inputs.connected)).
    reflexivity.
Defined.

Section with_backoff.
Context {Backoff : Type} (EB : Backoff) (delay : Backoff → nat * Backoff).

(** An attempt task looks at the session only through the loop test. *)
Lemma retry_same_test u n n' script : ∀ backoff attempt now ncalls sleeps,
  _is_shutdown n' = _is_shutdown n →
  no_open_socket n' = no_open_socket n →
  retry delay u n' script backoff attempt now ncalls sleeps =
  retry delay u n script backoff attempt now ncalls sleeps.
Proof.
  induction script as [|a script IH]; intros backoff attempt now ncalls sleeps Hs Hw;
    simpl; rewrite Hs, Hw; [done|].
  destruct (negb (_is_shutdown n) && no_open_socket n); [|done].
  destruct (ends a); try done. destruct (delay backoff). by apply IH.
Qed.

(** X6: frames sent while the session has no open socket are put on the
    wire by the next [connect] that wins a socket which stays open: after
    the frames that were queued before them, in call order, each once; and
    they all stay in the queue. *)
Theorem queued_frames_sent_in_order self timeout env fuel n reg fs ws :
  no_open_socket n = true →
  race (as_completed timeout
          (_multi_try_connect EB delay combo_uri (set_is_shutdown false n) (combo_script env))
          (_multi_try_connect EB delay dedicated_uri (set_is_shutdown false n)
             (dedicated_script env))) = Break ws →
  (∀ k, alive env k = true) →
  length (_queue n) + length fs < fuel →
  let r := connect EB delay self timeout env fuel (send_all fs n) reg in
  how r = Returns ∧
  ready (final r).1 = true ∧
  wire (final r).1 = wire n ++ _queue n ++ fs ∧
  _queue (final r).1 = _queue n ++ fs.
Proof.
  intros Hw Hrace Ha Hlen r. subst r. rewrite send_all_closed by done.
  destruct (connect_returns EB delay self timeout env fuel
              (set_queue (_queue n ++ fs) n) reg ws) as [-> ->]; try done.
  - unfold _multi_try_connect in *.
    by rewrite !(retry_same_test _ (set_is_shutdown false n)
                   (set_is_shutdown false (set_queue (_queue n ++ fs) n))).
  - simpl. rewrite length_app. lia.
Qed.

(** Once the socket is closed for good while frames are still to be
    walked, the walk never ends: each frame walked is appended again. *)
Lemma flush_stuck alive k fuel : ∀ i n,
  (∀ j, k ≤ j → alive j = false) →
  i < length (_queue n) →
  k < length (_queue n) →
  (flush fuel alive i n).2 = None.
Proof.
  induction fuel as [|fuel IH]; intros i n Ha Hi Hk; simpl; [done|].
  destruct (_queue n !! i) as [data|] eqn:E.
  2:{ apply lookup_ge_None in E. lia. }
  pose proof (socket_now_fields (alive i) n) as (_ & _ & Hq & _).
  assert (length (_queue n) ≤ length (_queue (send data (socket_now (alive i) n)))) as Hmono.
  { unfold send. destruct (no_open_socket _); simpl; rewrite Hq, ?length_app; lia. }
  assert (S i < length (_queue (send data (socket_now (alive i) n)))) as Hi'.
  { destruct (decide (k ≤ i)) as [Hle|Hgt]; [|lia].
    rewrite (Ha i Hle) in *.
    assert (no_open_socket (socket_now false n) = true) as Hc.
    { unfold no_open_socket, socket_now.
      destruct (_ws n) eqn:E'; simpl; [done|by rewrite E']. }
    unfold send. rewrite Hc. simpl. rewrite Hq, length_app. simpl. lia. }
  specialize (IH (S i) _ Ha Hi' ltac:(lia)).
  by destruct (flush fuel alive (S i) _) as [mids res].
Qed.

(** X7: if the socket [connect] has won is closed for good before the walk
    over the backlog has reached its [k]-th frame, [connect] never returns:
    however long it runs, readiness is not set. *)
Theorem connect_stuck_on_closed_socket self timeout env fuel n reg ws k :
  race (as_completed timeout
          (_multi_try_connect EB delay combo_uri (set_is_shutdown false n) (combo_script env))
          (_multi_try_connect EB delay dedicated_uri (set_is_shutdown false n)
             (dedicated_script env))) = Break ws →
  k < length (_queue n) →
  (∀ j, k ≤ j → alive env j = false) →
  let r := connect EB delay self timeout env fuel n reg in
  how r = Diverges ∧
  ready (final r).1 = ready n ∧
  ∀ s, s ∈ seen r → ready s.1 = ready n.
Proof.
  intros Hrace Hk Ha. unfold connect. simpl. rewrite Hrace.
  set (n3 := set_listener_task _ _).
  pose proof (flush_stuck (alive env) k fuel 0 n3 Ha) as Hnone.
  destruct (flush fuel (alive env) 0 n3) as [mids res] eqn:E.
  destruct (flush_flags _ _ _ _ _ _ E) as [Hm _].
  simpl in Hnone. rewrite Hnone by (subst n3; simpl; lia). simpl.
  split; [done|]. split.
  - destruct (last mids) as [m|] eqn:El; simpl; [|done].
    apply last_Some_elem_of in El. by destruct (Hm m El) as [-> _].
  - intros s Hin.
    repeat (apply elem_of_cons in Hin as [->|Hin]; [done|]).
    apply list_elem_of_fmap in Hin as (m & -> & Hin). simpl.
    by destruct (Hm m Hin) as [-> _].
Qed.

(** With the loop test failing the task returns [None] without a call. *)
Lemma retry_idle u n script backoff attempt now ncalls sleeps :
  negb (_is_shutdown n) && no_open_socket n = false →
  retry delay u n script backoff attempt now ncalls sleeps =
  {| ended := Return None; at_time := now; attempt_no := attempt;
     calls := ncalls; slept := sleeps |}.
Proof. intros H. destruct script; simpl; by rewrite H. Qed.

(** X8: [connect] on a session that has an open socket makes no
    connection attempt and raises [asyncio.TimeoutError], with or without a
    timeout; the session, its readiness and the registry stay as they
    were. *)
Theorem connect_on_open_socket self timeout env fuel n reg :
  no_open_socket n = false →
  let n1 := set_is_shutdown false n in
  let r := connect EB delay self timeout env fuel n reg in
  how r = Raises TimeoutError ∧
  final r = (n1, reg) ∧
  calls (_multi_try_connect EB delay combo_uri n1 (combo_script env)) = 0 ∧
  calls (_multi_try_connect EB delay dedicated_uri n1 (dedicated_script env)) = 0.
Proof.
  intros Hw n1 r. subst r. unfold connect, _multi_try_connect. fold n1. simpl.
  assert (negb (_is_shutdown n1) && no_open_socket n1 = false) as Hidle.
  { replace (no_open_socket n1) with (no_open_socket n) by done.
    rewrite Hw. apply andb_false_r. }
  rewrite !retry_idle by done. simpl.
  unfold as_completed, completes_before, await_task. simpl.
  destruct timeout as [d|]; simpl; [|done].
  by case_bool_decide.
Qed.




Lemma dict_get_set_ne {V} (k j : node_id) (v : V) d :
  j ≠ k → dict_get j (dict_set k v d) = dict_get j d.
Proof.
  intros Hne. induction d as [|[k' v'] d IH]; simpl.
  - by rewrite decide_False.
  - destruct (decide (k' = k)) as [->|?]; simpl.
    + by rewrite !decide_False by done.
    + destruct (decide (k' = j)); [done|apply IH].
Qed.

Lemma keys_dict_set_in {V} (k : node_id) (v : V) d :
  k ∈ keys d → keys (dict_set k v d) = keys d.
Proof.
  unfold keys. induction d as [|[k' v'] d IH]; simpl.
  - intros H. by apply elem_of_nil in H.
  - destruct (decide (k' = k)) as [->|Hne]; simpl; [done|].
    intros [?|Hin]%elem_of_cons; [done|]. f_equal. by apply IH.
Qed.

Lemma keys_dict_set_new {V} (k : node_id) (v : V) d :
  k ∉ keys d → keys (dict_set k v d) = keys d ++ [k].
Proof.
  unfold keys. induction d as [|[k' v'] d IH]; simpl; [done|].
  intros [Hne Hin]%not_elem_of_cons.
  rewrite decide_False by done. simpl. f_equal. by apply IH.
Qed.

(** X10: a [connect] that returns registers the session afresh: whatever
    guilds it held are forgotten, the other sessions keep theirs, and a
    session that was registered before keeps its place in the registry
    (a new one goes last). *)
Theorem connect_registers_afresh self timeout env fuel n reg :
  NoDup (keys reg) →
  how (connect EB delay self timeout env fuel n reg) = Returns →
  let reg' := (final (connect EB delay self timeout env fuel n reg)).2 in
  dict_get self reg' = Some [] ∧
  (∀ k, k ≠ self → dict_get k reg' = dict_get k reg) ∧
  (self ∈ keys reg → keys reg' = keys reg) ∧
  (self ∉ keys reg → keys reg' = keys reg ++ [self]) ∧
  ∀ g, self ∉ owners_in g reg'.
Proof.
  intros ND Hhow reg'.
  assert (reg' = dict_set self [] reg) as ->.
  { subst reg'. revert Hhow. unfold connect. simpl. destruct (race _); simpl; try done.
    destruct (flush _ _ _ _) as [mids [n4|]]; simpl; done. }
  split; [apply dict_get_set|]. split; [intros k Hk; by apply dict_get_set_ne|].
  split; [apply keys_dict_set_in|]. split; [apply keys_dict_set_new|].
  intros g. by apply owners_in_dict_set_self.
Qed.

(** X11: a session that is connected again after [disconnect] first sends
    what it had queued, the destroy commands of the players it dropped
    included. *)
Theorem destroy_commands_sent_after_disconnect self timeout env fuel n0 reg0 reg ws :
  let n := (Session.disconnect self n0 reg0).1 in
  race (as_completed timeout
          (_multi_try_connect EB delay combo_uri (set_is_shutdown false n) (combo_script env))
          (_multi_try_connect EB delay dedicated_uri (set_is_shutdown false n)
             (dedicated_script env))) = Break ws →
  (∀ k, alive env k = true) →
  length (_queue n0) + length (_players n0) < fuel →
  let r := connect EB delay self timeout env fuel n reg in
  how r = Returns ∧
  wire (final r).1 =
    wire n0 ++ _queue n0 ++ ((λ p, DESTROY (guild p)) <$> _players n0).
Proof.
  intros n Hrace Ha Hlen r.
  destruct (disconnect_fields self n0 reg0) as (_ & _ & _ & _ & Hq & Hwi).
  fold n in Hq, Hwi.
  destruct (connect_returns EB delay self timeout env fuel n reg ws Hrace Ha) as [Hhow Hfin].
  { rewrite Hq, length_app, length_fmap. lia. }
  subst r. split; [done|]. rewrite Hfin. simpl. by rewrite Hq, Hwi.
Qed.

(** The walk over the backlog keeps the socket's endpoint. *)
Lemma flush_peer fuel alive : ∀ i n mids res,
  flush fuel alive i n = (mids, res) →
  (∀ m, m ∈ mids → peer <$> _ws m = peer <$> _ws n) ∧
  (∀ n', res = Some n' → peer <$> _ws n' = peer <$> _ws n).
Proof.
  induction fuel as [|fuel IH]; intros i n mids res; simpl.
  { intros [= <- <-]. split; [|done]. intros m H. by apply elem_of_nil in H. }
  destruct (_queue n !! i) as [data|].
  2:{ intros [= <- <-]. split; [|by intros ? [= <-]].
      intros m H. by apply elem_of_nil in H. }
  destruct (flush fuel alive (S i) _) as [mids' r'] eqn:E. intros [= <- <-].
  destruct (IH _ _ _ _ E) as [Hm Hr].
  assert (peer <$> _ws (send data (socket_now (alive i) n)) = peer <$> _ws n) as Hp.
  { destruct (send_fields data (socket_now (alive i) n)) as (_ & _ & -> & _).
    unfold socket_now. by destruct (_ws n) eqn:E'; simpl; rewrite ?E'. }
  split.
  - intros m [->|Hin]%elem_of_cons; [done|]. by rewrite (Hm m Hin).
  - intros n' ->. by rewrite (Hr n' eq_refl).
Qed.

(** Once a socket has ended the race, the session holds a socket to that
    endpoint whatever else happens in [connect]. *)
Lemma connect_peer self timeout env fuel n reg ws :
  race (as_completed timeout
          (_multi_try_connect EB delay combo_uri (set_is_shutdown false n) (combo_script env))
          (_multi_try_connect EB delay dedicated_uri (set_is_shutdown false n)
             (dedicated_script env))) = Break ws →
  let r := connect EB delay self timeout env fuel n reg in
  peer <$> _ws (final r).1 = Some (peer ws) ∧ dict_get self (final r).2 = Some [].
Proof.
  intros Hrace. unfold connect. simpl. rewrite Hrace.
  destruct (flush _ _ _ _) as [mids res] eqn:E.
  destruct (flush_peer _ _ _ _ _ _ E) as [Hm Hres]. simpl in Hm, Hres.
  destruct res as [n4|]; simpl.
  - split; [by apply Hres|apply dict_get_set].
  - split; [|apply dict_get_set].
    destruct (last mids) as [m|] eqn:El; simpl; [|done].
    apply last_Some_elem_of in El. by apply Hm.
Qed.





End with_backoff.

Lemma queued_frames_sent_in_order_witness :
  let r := connect 0 Sample.doubling 0 None Sample.combo_answers 8
             (send_all [Sample.play7; Sample.stop7] __init__) [] in
  how r = Returns ∧ ready (final r).1 = true ∧
  wire (final r).1 = [Sample.play7; Sample.stop7] ∧
  _queue (final r).1 = [Sample.play7; Sample.stop7].
Proof.
  apply (queued_frames_sent_in_order 0 Sample.doubling 0 None Sample.combo_answers 8
           __init__ [] [Sample.play7; Sample.stop7] {| peer := combo_uri; open := true |}).
  - reflexivity.
  - reflexivity.
  - reflexivity.
  - simpl. lia.
Defined.

Lemma connect_stuck_on_closed_socket_witness :
  let r := connect 0 Sample.doubling 0 None Inputs.combo_then_closed 50
             (send_all [Sample.play7; Sample.stop7] __init__) [] in
  how r = Diverges ∧
  ready (final r).1 = false ∧
  ∀ s, s ∈ seen r → ready s.1 = false.
Proof.
  apply (connect_stuck_on_closed_socket 0 Sample.doubling 0 None Inputs.combo_then_closed
           50 (send_all [Sample.play7; Sample.stop7] __init__) []
           {| peer := combo_uri; open := true |} 1).
  - reflexivity.
  - simpl. lia.
  - intros j Hj. simpl. destruct j; [lia|reflexivity].
Defined.

Lemma connect_on_open_socket_witness :
  let r := connect 0 Sample.doubling 0 None Sample.combo_answers 8 Inputs.connected
             [(0, [5%Z])] in
  how r = Raises TimeoutError ∧
  final r = (set_is_shutdown false Inputs.connected, [(0, [5%Z])]) ∧
  calls (_multi_try_connect 0 Sample.doubling combo_uri
           (set_is_shutdown false Inputs.connected) (combo_script Sample.combo_answers)) = 0 ∧
  calls (_multi_try_connect 0 Sample.doubling dedicated_uri
           (set_is_shutdown false Inputs.connected)
           (dedicated_script Sample.combo_answers)) = 0.
Proof.
  apply (connect_on_open_socket 0 Sample.doubling 0 None Sample.combo_answers 8
           Inputs.connected [(0, [5%Z])]).
  reflexivity.
Defined.


Lemma connect_registers_afresh_witness :
  let reg' := (final (connect 0 Sample.doubling 0 None Sample.combo_answers 8
                        Sample.queued_once [(0, [5%Z]); (1, [6%Z])])).2 in
  dict_get 0 reg' = Some [] ∧
  (∀ k, k ≠ 0 → dict_get k reg' = dict_get k [(0, [5%Z]); (1, [6%Z])]) ∧
  (0 ∈ keys [(0, [5%Z]); (1, [6%Z])] → keys reg' = [0; 1]) ∧
  (0 ∉ keys [(0, [5%Z]); (1, [6%Z])] → keys reg' = [0; 1] ++ [0]) ∧
  ∀ g, 0 ∉ owners_in g reg'.
Proof.
  apply (connect_registers_afresh 0 Sample.doubling 0 None Sample.combo_answers 8
           Sample.queued_once [(0, [5%Z]); (1, [6%Z])]).
  - apply (bool_decide_unpack _). by vm_compute.
  - reflexivity.
Defined.

Lemma destroy_commands_sent_after_disconnect_witness :
  let r := connect 0 Sample.doubling 0 None Sample.combo_answers 8
             (Session.disconnect 0 Sample.busy [(0, [8%Z; 9%Z])]).1 [] in
  how r = Returns ∧ wire (final r).1 = [] ++ [] ++ [DESTROY 8; DESTROY 9].
Proof.
  apply (destroy_commands_sent_after_disconnect 0 Sample.doubling 0 None
           Sample.combo_answers 8 Sample.busy [(0, [8%Z; 9%Z])] []
           {| peer := combo_uri; open := true |}).
  - reflexivity.
  - reflexivity.
  - simpl. lia.
Defined.


End SessionMore.

(** ** What the system never takes away *)

Module SystemMore.
Import Session Registry System Notions Commands.
Import RegistryProofs SessionProofs SystemProofs SessionMore.

Lemma disconnect_keeps_socket self n reg :
  is_Some (_ws n) → is_Some (_ws (Session.disconnect self n reg).1).
Proof.
  intros [ws Hws]. unfold Session.disconnect. simpl.
  set (n2 := set_ready false (set_is_shutdown true n)).
  pose proof (closed_after_close n2) as Hc.
  set (n3 := if negb (no_open_socket n2) then socket_now false n2 else n2) in *.
  rewrite destroy_players_closed by done. simpl.
  subst n3. destruct (negb (no_open_socket n2)); simpl.
  - unfold socket_now. simpl. rewrite Hws. simpl. eauto.
  - rewrite Hws. eauto.
Qed.

Lemma on_node_keeps_socket j (f : Node → registry → Node * registry) w i n :
  (∀ m reg, is_Some (_ws m) → is_Some (_ws (f m reg).1)) →
  objects w !! i = Some n →
  is_Some (_ws n) →
  ∃ n', objects (on_node j f w) !! i = Some n' ∧ is_Some (_ws n').
Proof.
  intros Hf Hi Hws. unfold on_node.
  destruct (objects w !! j) as [m|] eqn:Hj; [|eauto].
  specialize (Hf m (_nodes w)). destruct (f m (_nodes w)) as [m' reg']. simpl in *.
  destruct (decide (j = i)) as [->|Hne].
  - rewrite lookup_insert_eq. exists m'. split; [done|]. apply Hf. congruence.
  - rewrite lookup_insert_ne by done. eauto.
Qed.

Section with_backoff.
Context {Backoff : Type} (EB : Backoff) (delay : Backoff → nat * Backoff).

Lemma connect_keeps_socket self timeout env fuel n reg :
  is_Some (_ws n) →
  is_Some (_ws (final (connect EB delay self timeout env fuel n reg)).1).
Proof.
  intros Hws.
  destruct (race (as_completed timeout
              (_multi_try_connect EB delay combo_uri (set_is_shutdown false n)
                 (combo_script env))
              (_multi_try_connect EB delay dedicated_uri (set_is_shutdown false n)
                 (dedicated_script env)))) as [ws| |] eqn:Hrace.
  - destruct (connect_peer EB delay self timeout env fuel n reg ws Hrace) as [Hp _].
    destruct (_ws (final (connect EB delay self timeout env fuel n reg)).1);
      [eauto|done].
  - unfold connect. simpl. by rewrite Hrace.
  - unfold connect. simpl. by rewrite Hrace.
Qed.

Lemma listener_exit_keeps_socket self env fuel n reg :
  is_Some (_ws n) →
  is_Some (_ws (final (listener_exit EB delay self env fuel n reg)).1).
Proof.
  intros Hws. unfold listener_exit, _reconnect. simpl.
  destruct (_is_shutdown n); simpl; [done|]. rewrite set_ready_set_ready.
  pose proof (connect_keeps_socket self None env fuel (set_ready false n) reg Hws) as H.
  by destruct (how (connect EB delay self None env fuel (set_ready false n) reg))
    as [|[]|].
Qed.

Lemma step_keeps_socket w w' i n :
  step EB delay w w' →
  objects w !! i = Some n →
  is_Some (_ws n) →
  ∃ n', objects w' !! i = Some n' ∧ is_Some (_ws n').
Proof.
  destruct 1 as [w j Hj|w j data|w j p|w j|w j timeout env fuel|w j env fuel|w j|w
                 |w g node w' Hg]; intros Hi Hws.
  - simpl. exists n. split; [|done]. rewrite lookup_insert_ne; [done|]. congruence.
  - apply (on_node_keeps_socket _ _ _ _ n); [|done..]. intros m reg. simpl.
    by destruct (send_fields data m) as (_ & _ & -> & _).
  - by apply (on_node_keeps_socket _ _ _ _ n).
  - apply (on_node_keeps_socket _ _ _ _ n); [|done..]. intros m reg [ws Hm]. simpl.
    unfold socket_now. rewrite Hm. simpl. eauto.
  - apply (on_node_keeps_socket _ _ _ _ n); [|done..]. intros m reg. apply connect_keeps_socket.
  - apply (on_node_keeps_socket _ _ _ _ n); [|done..]. intros m reg. apply listener_exit_keeps_socket.
  - apply (on_node_keeps_socket _ _ _ _ n); [|done..]. intros m reg. apply disconnect_keeps_socket.
  - unfold Registry.disconnect. generalize (keys (_nodes w)). intros l.
    revert w n Hi Hws. induction l as [|j l IH]; intros w n Hi Hws; simpl; [eauto|].
    destruct (on_node_keeps_socket j (Session.disconnect j) w i n) as (n' & Hi' & Hws');
      [intros m reg; apply disconnect_keeps_socket|done..|].
    by apply (IH _ n').
  - revert Hg. unfold get_node. destruct (_nodes w); [done|].
    destruct (scan _ _ _ _ _) as [?|[?|]]; intros [= _ <-]; eauto.
Qed.

(** X13: no step of the system deletes a session object or takes its
    socket away: once a session has had a socket, [lavalink_major_version]
    answers from that socket's response headers ever after, also when the
    socket is closed or the session disconnected.  Only a session that has
    never been connected gets the "not connected" assertion. *)
Theorem socket_never_forgotten response_headers w w' i n :
  rtc (step EB delay) w w' →
  objects w !! i = Some n →
  is_Some (_ws n) →
  ∃ n' ws', objects w' !! i = Some n' ∧ _ws n' = Some ws' ∧
            lavalink_major_version response_headers n'
            = Fine (response_headers ws' !! "Lavalink-Major-Version").
Proof.
  intros Hrtc. revert n. induction Hrtc as [w|w w1 w2 Hstep _ IH]; intros n Hi Hws.
  - destruct Hws as [ws Hws]. exists n, ws. repeat split; try done.
    unfold lavalink_major_version. by rewrite Hws.
  - destruct (step_keeps_socket w w1 i n Hstep Hi Hws) as (n1 & Hi1 & Hws1).
    by apply (IH n1).
Qed.

End with_backoff.

Lemma socket_never_forgotten_witness :
  ∃ n' ws', objects (on_node 0 (Session.disconnect 0)
                       {| objects := {[0 := Inputs.connected]}; _nodes := [(0, [])] |})
              !! 0 = Some n' ∧
            _ws n' = Some ws' ∧
            lavalink_major_version (λ _, {["Lavalink-Major-Version" := "3"]}) n'
            = Fine ((λ _ : Ws, ({["Lavalink-Major-Version" := "3"]} : gmap string string))
                      ws' !! "Lavalink-Major-Version").
Proof.
  apply (socket_never_forgotten 0 Sample.doubling
           (λ _, {["Lavalink-Major-Version" := "3"]})
           {| objects := {[0 := Inputs.connected]}; _nodes := [(0, [])] |}
           _ 0 Inputs.connected).
  - apply rtc_once. apply step_disconnect.
  - reflexivity.
  - by eexists.
Defined.

End SystemMore.

(** ** Inbound frames *)

Module InboundProofs.
Import Wire Session Inbound Notions.

(** A successful lookup by value was given the value of the member it
    returns. *)
Lemma call_inv {E : Type} `{Enums.Enum E} (v : json) (m : E) :
  Enums.call v = Some m → v = JStr (Enums.value m).
Proof.
  unfold Enums.call. destruct v; try done.
  intros [_ Hm]%List.find_some. apply bool_decide_eq_true in Hm. by subst.
Qed.

(** X14: in each enumeration of the module a member is found again by its
    value, and a lookup succeeds only on the string that is the value of the
    member it returns: no two members share a value, and nothing but a
    string is ever a member's value. *)
Theorem enum_round_trip :
  (∀ m : Enums.LavalinkIncomingOp, Enums.call (JStr (Enums.value m)) = Some m) ∧
  (∀ m : Enums.LavalinkOutgoingOp, Enums.call (JStr (Enums.value m)) = Some m) ∧
  (∀ m : Enums.LavalinkEvents, Enums.call (JStr (Enums.value m)) = Some m) ∧
  (∀ m : Enums.TrackEndReason, Enums.call (JStr (Enums.value m)) = Some m) ∧
  (∀ m : Enums.DiscordVoiceSocketResponses,
     Enums.call (JStr (Enums.value m)) = Some m) ∧
  (∀ (v : json) (m : Enums.LavalinkIncomingOp),
     Enums.call v = Some m → v = JStr (Enums.value m)) ∧
  (∀ (v : json) (m : Enums.LavalinkOutgoingOp),
     Enums.call v = Some m → v = JStr (Enums.value m)) ∧
  (∀ (v : json) (m : Enums.LavalinkEvents),
     Enums.call v = Some m → v = JStr (Enums.value m)) ∧
  (∀ (v : json) (m : Enums.TrackEndReason),
     Enums.call v = Some m → v = JStr (Enums.value m)) ∧
  (∀ (v : json) (m : Enums.DiscordVoiceSocketResponses),
     Enums.call v = Some m → v = JStr (Enums.value m)).
Proof.
  repeat split; try (intros []; reflexivity); intros v m; apply call_inv.
Qed.

Lemma enum_round_trip_witness :
  JStr "playerUpdate" = JStr (Enums.value Enums.PLAYER_UPDATE) ∧
  JStr "TrackStuckEvent" = JStr (Enums.value Enums.TRACK_STUCK).
Proof.
  destruct enum_round_trip as (_ & _ & _ & _ & _ & Hop & _ & Hev & _).
  split; [apply Hop|apply Hev]; reflexivity.
Defined.

Lemma Forall2_impl_elem {A B} (P Q : A → B → Prop) l k :
  Forall2 P l k → (∀ x y, x ∈ l → P x y → Q x y) → Forall2 Q l k.
Proof.
  induction 1 as [|x y l k HP _ IH]; intros HQ; constructor.
  - apply HQ; [left|done].
  - apply IH. intros x' y' Hin. apply HQ. by right.
Qed.

(** Keyword arguments bind to the fields of a named tuple exactly when the
    keys of the dict are the fields; each field then gets the value stored
    under its name. *)
Lemma bind_fields_spec fields : ∀ d vs,
  NoDup fields →
  bind_fields fields d = Some vs ↔
  dom d = list_to_set fields ∧ Forall2 (λ f v, d !! f = Some v) fields vs.
Proof.
  induction fields as [|f fields IH]; intros d vs ND; simpl.
  - case_bool_decide as Hd.
    + subst. split.
      * intros [= <-]. split; [apply dom_empty_L|constructor].
      * intros [_ HF]. by inversion HF.
    + split; [done|]. intros [Hdom _]. destruct Hd. by apply dom_empty_iff_L.
  - apply NoDup_cons in ND as [Hf ND].
    assert (∀ vs0, dom d = {[f]} ∪ list_to_set fields →
                   Forall2 (λ f v, d !! f = Some v) fields vs0 →
                   bind_fields fields (delete f d) = Some vs0) as Hback.
    { intros vs0 Hdom HF. apply (IH _ _ ND). split.
      - rewrite dom_delete_L, Hdom.
        assert (f ∉ (list_to_set fields : gset string)) as Hnin
          by by rewrite elem_of_list_to_set.
        apply set_eq. intros x.
        rewrite elem_of_difference, elem_of_union, !elem_of_singleton.
        split; [intros [[?|?] ?]; done|]. intros Hx. split; [by right|].
        by intros ->.
      - apply (Forall2_impl_elem _ _ _ _ HF). intros f' v' Hin Hl.
        rewrite lookup_delete_ne; [done|]. by intros ->. }
    destruct (d !! f) as [v|] eqn:Ef.
    2:{ split; [done|]. intros [_ HF]. inversion HF; congruence. }
    destruct (bind_fields fields (delete f d)) as [vs'|] eqn:Eb.
    + pose proof Eb as [Hdom HF]%(IH _ _ ND). split.
      * intros [= <-]. split.
        -- rewrite <- Hdom, dom_delete_L.
           apply union_difference_singleton_L, elem_of_dom. eauto.
        -- constructor; [done|]. eapply Forall2_impl; [exact HF|].
           intros f' v' H. simpl in H. by apply lookup_delete_Some in H as [_ ?].
      * intros [Hdom' HF']. inversion HF' as [|? v0 ? vs0 Hv HF'']; subst.
        assert (v0 = v) as -> by congruence.
        by pose proof (Hback vs0 Hdom' HF'') as [= ->].
    + split; [done|]. intros [Hdom' HF'].
      inversion HF' as [|? v0 ? vs0 Hv HF'']; subst.
      by pose proof (Hback vs0 Hdom' HF'').
Qed.

Lemma lookups_get (d : gmap string json) fields vs :
  (∀ f, f ∈ fields → is_Some (d !! f)) →
  Forall2 (λ f v, d !! f = Some v) fields vs ↔ vs = (λ f, get f d) <$> fields.
Proof.
  revert vs. induction fields as [|f fields IH]; intros vs Hin; simpl.
  - split; [by inversion 1|intros ->; constructor].
  - destruct (Hin f) as [v Hv]; [left|].
    assert (get f d = v) as Hg by (unfold get; by rewrite Hv).
    split.
    + inversion 1 as [|? v0 ? vs0 Hv0 HF]; subst.
      f_equal; [congruence|]. apply IH; [|done]. intros f' ?. apply Hin. by right.
    + intros ->. constructor; [congruence|].
      apply IH; [|done]. intros f' ?. apply Hin. by right.
Qed.

(** Unpacking a value into keyword arguments succeeds exactly on a dict
    whose keys are the fields. *)
Lemma unpack_spec fields v vs :
  NoDup fields →
  unpack fields v = Some vs ↔
  ∃ d, v = JDict d ∧ dom d = list_to_set fields ∧ vs = (λ f, get f d) <$> fields.
Proof.
  intros ND. unfold unpack. destruct v as [| | | | | |d];
    try (split; [done|by intros (? & [=] & _)]).
  rewrite (bind_fields_spec fields d vs ND). split.
  - intros [Hdom HF]. exists d. split; [done|]. split; [done|].
    apply lookups_get; [|done]. intros f Hf.
    apply elem_of_dom. rewrite Hdom. by apply elem_of_list_to_set.
  - intros (d' & [= <-] & Hdom & ->). split; [done|].
    apply lookups_get; [|done]. intros f Hf.
    apply elem_of_dom. rewrite Hdom. by apply elem_of_list_to_set.
Qed.

Lemma NoDup_strings (l : list string) : bool_decide (NoDup l) = true → NoDup l.
Proof. apply bool_decide_eq_true. Qed.

Lemma PlayerState_new_spec v st :
  PlayerState_new v = Some st ↔
  ∃ s, v = JDict s ∧ dom s = list_to_set ["position"; "time"] ∧
       st = {| position := get "position" s; time := get "time" s |}.
Proof.
  unfold PlayerState_new.
  assert (NoDup ["position"; "time"]) as ND by (by apply NoDup_strings).
  pose proof (λ vs, unpack_spec ["position"; "time"] v vs ND) as Hu.
  destruct (unpack _ v) as [vs|] eqn:E.
  - destruct (proj1 (Hu vs) eq_refl) as (s & -> & Hdom & ->). simpl. split.
    + intros [= <-]. eauto.
    + intros (s' & [= <-] & _ & ->). done.
  - split; [done|]. intros (s & -> & Hdom & _).
    by pose proof (proj2 (Hu _) (ex_intro _ s (conj eq_refl (conj Hdom eq_refl)))).
Qed.

Lemma MemoryInfo_new_spec v mi :
  MemoryInfo_new v = Some mi ↔
  ∃ m, v = JDict m ∧ dom m = list_to_set ["reservable"; "used"; "free"; "allocated"] ∧
       mi = {| reservable := get "reservable" m; used := get "used" m;
               free := get "free" m; allocated := get "allocated" m |}.
Proof.
  unfold MemoryInfo_new.
  assert (NoDup ["reservable"; "used"; "free"; "allocated"]) as ND
    by (by apply NoDup_strings).
  pose proof (λ vs, unpack_spec ["reservable"; "used"; "free"; "allocated"] v vs ND) as Hu.
  destruct (unpack _ v) as [vs|] eqn:E.
  - destruct (proj1 (Hu vs) eq_refl) as (s & -> & Hdom & ->). simpl. split.
    + intros [= <-]. eauto.
    + intros (s' & [= <-] & _ & ->). done.
  - split; [done|]. intros (s & -> & Hdom & _).
    by pose proof (proj2 (Hu _) (ex_intro _ s (conj eq_refl (conj Hdom eq_refl)))).
Qed.

Lemma CPUInfo_new_spec v ci :
  CPUInfo_new v = Some ci ↔
  ∃ u, v = JDict u ∧ dom u = list_to_set ["cores"; "systemLoad"; "lavalinkLoad"] ∧
       ci = {| cores := get "cores" u; systemLoad := get "systemLoad" u;
               lavalinkLoad := get "lavalinkLoad" u |}.
Proof.
  unfold CPUInfo_new.
  assert (NoDup ["cores"; "systemLoad"; "lavalinkLoad"]) as ND
    by (by apply NoDup_strings).
  pose proof (λ vs, unpack_spec ["cores"; "systemLoad"; "lavalinkLoad"] v vs ND) as Hu.
  destruct (unpack _ v) as [vs|] eqn:E.
  - destruct (proj1 (Hu vs) eq_refl) as (s & -> & Hdom & ->). simpl. split.
    + intros [= <-]. eauto.
    + intros (s' & [= <-] & _ & ->). done.
  - split; [done|]. intros (s & -> & Hdom & _).
    by pose proof (proj2 (Hu _) (ex_intro _ s (conj eq_refl (conj Hdom eq_refl)))).
Qed.

Lemma call_event_value (e : Enums.LavalinkEvents) :
  Enums.call (JStr (Enums.value e)) = Some e.
Proof. by destruct e. Qed.

Lemma call_op_value (o : Enums.LavalinkIncomingOp) :
  Enums.call (JStr (Enums.value o)) = Some o.
Proof. by destruct o. Qed.

(** X15: when [_handle_op] calls the event handler: for an event frame,
    when [type] is the value of a [LavalinkEvents] member (the synthesized
    ones included); for a player update, when [state] is an object with
    exactly the keys [position] and [time]; for a stats frame, when [memory]
    and [cpu] are objects with exactly their four and three keys, whatever
    [players], [playingPlayers] and [uptime] are, absent included.  The
    handler then gets the op, the decoded value and the frame itself; in
    every other case it is not called. *)
Theorem _handle_op_calls op d c :
  _handle_op op d = Called c ↔
  Inbound.op c = op ∧ data c = Json <$> d ∧
  match op with
  | Enums.EVENT =>
      ∃ e, get "type" d = JStr (Enums.value e) ∧ arg c = Event e
  | Enums.PLAYER_UPDATE =>
      ∃ s, get "state" d = JDict s ∧
           dom s = list_to_set ["position"; "time"] ∧
           arg c = State {| position := get "position" s; time := get "time" s |}
  | Enums.STATS =>
      ∃ m u, get "memory" d = JDict m ∧
             dom m = list_to_set ["reservable"; "used"; "free"; "allocated"] ∧
             get "cpu" d = JDict u ∧
             dom u = list_to_set ["cores"; "systemLoad"; "lavalinkLoad"] ∧
             arg c = Statistics
                       {| memory := {| reservable := get "reservable" m;
                                       used := get "used" m;
                                       free := get "free" m;
                                       allocated := get "allocated" m |};
                          players := get "players" d;
                          active_players := get "playingPlayers" d;
                          cpu_info := {| cores := get "cores" u;
                                         systemLoad := get "systemLoad" u;
                                         lavalinkLoad := get "lavalinkLoad" u |};
                          uptime := get "uptime" d |}
  end.
Proof.
  destruct op; unfold _handle_op.
  - destruct (Enums.call (get "type" d)) as [e|] eqn:E.
    + split.
      * intros [= <-]. pose proof (call_inv _ _ E) as Ht. simpl. repeat split.
        by exists e.
      * intros (Hop & Hd & e' & Ht & Ha). rewrite Ht, call_event_value in E.
        injection E as ->. destruct c; simpl in *. by subst.
    + split; [done|]. intros (_ & _ & e' & Ht & _).
      by rewrite Ht, call_event_value in E.
  - destruct (PlayerState_new (get "state" d)) as [st|] eqn:E.
    + apply PlayerState_new_spec in E as (s & Hs & Hdom & ->). split.
      * intros [= <-]. simpl. repeat split. eauto.
      * intros (Hop & Hd & s' & Hs' & _ & Ha). rewrite Hs in Hs'. injection Hs' as <-.
        destruct c; simpl in *. by subst.
    + split; [done|]. intros (_ & _ & s & Hs & Hdom & _).
      assert (PlayerState_new (get "state" d) <> None) as Hne; [|done].
      intros _. pose proof (proj2 (PlayerState_new_spec (get "state" d) _)
                              (ex_intro _ s (conj Hs (conj Hdom eq_refl)))) as H.
      by rewrite E in H.
  - unfold Stats_new.
    destruct (MemoryInfo_new (get "memory" d)) as [mi|] eqn:Em.
    2:{ split; [done|]. intros (_ & _ & m & u & Hm & Hdm & _).
        pose proof (proj2 (MemoryInfo_new_spec (get "memory" d) _)
                      (ex_intro _ m (conj Hm (conj Hdm eq_refl)))) as H.
        by rewrite Em in H. }
    destruct (CPUInfo_new (get "cpu" d)) as [ci|] eqn:Ec.
    2:{ split; [done|]. intros (_ & _ & m & u & _ & _ & Hu & Hdu & _).
        pose proof (proj2 (CPUInfo_new_spec (get "cpu" d) _)
                      (ex_intro _ u (conj Hu (conj Hdu eq_refl)))) as H.
        by rewrite Ec in H. }
    apply MemoryInfo_new_spec in Em as (m & Hm & Hdm & ->).
    apply CPUInfo_new_spec in Ec as (u & Hu & Hdu & ->). split.
    + intros [= <-]. simpl. repeat split. exists m, u. by repeat split.
    + intros (Hop & Hd & m' & u' & Hm' & _ & Hu' & _ & Ha).
      rewrite Hm in Hm'. injection Hm' as <-. rewrite Hu in Hu'. injection Hu' as <-.
      destruct c; simpl in *. by subst.
Qed.

Lemma _handle_op_calls_witness :
  ∃ m u, get "memory" Inputs.stats_frame = JDict m ∧
         dom m = list_to_set ["reservable"; "used"; "free"; "allocated"] ∧
         get "cpu" Inputs.stats_frame = JDict u ∧
         dom u = list_to_set ["cores"; "systemLoad"; "lavalinkLoad"] ∧
         Statistics
           {| memory := {| reservable := JInt 4; used := JInt 1; free := JInt 3;
                           allocated := JInt 2 |};
              players := JNull; active_players := JNull;
              cpu_info := {| cores := JInt 4; systemLoad := JFloat "0.25";
                             lavalinkLoad := JFloat "0.125" |};
              uptime := JInt 1000 |}
         = Statistics
             {| memory := {| reservable := get "reservable" m; used := get "used" m;
                             free := get "free" m; allocated := get "allocated" m |};
                players := get "players" Inputs.stats_frame;
                active_players := get "playingPlayers" Inputs.stats_frame;
                cpu_info := {| cores := get "cores" u;
                               systemLoad := get "systemLoad" u;
                               lavalinkLoad := get "lavalinkLoad" u |};
                uptime := get "uptime" Inputs.stats_frame |}.
Proof.
  refine (proj2 (proj2 (proj1 (_handle_op_calls Enums.STATS Inputs.stats_frame
    {| op := Enums.STATS;
       arg := Statistics
                {| memory := {| reservable := JInt 4; used := JInt 1; free := JInt 3;
                                allocated := JInt 2 |};
                   players := JNull; active_players := JNull;
                   cpu_info := {| cores := JInt 4; systemLoad := JFloat "0.25";
                                  lavalinkLoad := JFloat "0.125" |};
                   uptime := JInt 1000 |};
       data := Json <$> Inputs.stats_frame |}) _))).
  reflexivity.
Defined.

(** The loop test comes first, whatever is received next. *)
Lemma listener_loop_no_socket n script :
  _ws n = None → listener_loop n script = ([], Crashed).
Proof. intros H. destruct script; simpl; by rewrite H. Qed.

Lemma listener_loop_test_fails n ws script :
  _ws n = Some ws → open ws && negb (_is_shutdown n) = false →
  listener_loop n script = ([], Left n).
Proof. intros H Ht. destruct script; simpl; by rewrite H, Ht. Qed.

Lemma listener_loop_filter n script :
  listener_loop n (List.filter recognised script) = listener_loop n script.
Proof.
  destruct (_ws n) as [ws|] eqn:Hws.
  2:{ by rewrite !listener_loop_no_socket. }
  destruct (open ws && negb (_is_shutdown n)) eqn:Ht.
  2:{ by rewrite !(listener_loop_test_fails n ws). }
  induction script as [|r script IH]; [done|].
  destruct r as [[j|]|]; try (simpl; by rewrite Hws, Ht).
  destruct j; try (simpl; by rewrite Hws, Ht).
  cbn [List.filter recognised].
  destruct (Enums.call (get "op" d)) as [o|] eqn:E.
  - simpl. rewrite Hws, Ht, E, IH. done.
  - rewrite IH. simpl. by rewrite Hws, Ht, E.
Qed.

Lemma listener_loop_objects n ws good rest :
  _ws n = Some ws → open ws = true → _is_shutdown n = false →
  Forall (λ r, is_object r = true) good →
  listener_loop n good = ((listener_loop n good).1, Receiving) ∧
  listener_loop n (good ++ rest)
  = ((listener_loop n good).1 ++ (listener_loop n rest).1, (listener_loop n rest).2).
Proof.
  intros Hws Ho Hs. induction 1 as [|r good Hr _ [IH1 IH2]].
  - split.
    + simpl. by rewrite Hws, Ho, Hs.
    + simpl. rewrite Hws, Ho, Hs. simpl. by destruct (listener_loop n rest).
  - destruct r as [[[]|]|]; try done. simpl. rewrite Hws, Ho, Hs. simpl.
    destruct (Enums.call (get "op" d)) as [o|]; [|done].
    rewrite IH2. rewrite IH1 at 1. simpl. by rewrite IH1.
Qed.

Lemma set_ready_same n : set_ready (ready n) n = n.
Proof. by destruct n. Qed.

Section with_backoff.
Context {Backoff : Type} (EB : Backoff) (delay : Backoff → nat * Backoff).

(** X16: frames whose [op] is missing or is not the value of a
    [LavalinkIncomingOp] are only logged: the listener behaves as if they
    had never been received. *)
Theorem listener_skips_unknown_ops self env fuel n reg script :
  listener EB delay self env fuel n reg (List.filter recognised script)
  = listener EB delay self env fuel n reg script.
Proof. unfold listener. by rewrite listener_loop_filter. Qed.

(** X17: a message that is not JSON, or is JSON but not an object, ends
    the listener with an exception: the handler calls are those of the
    objects received before it, what follows is never read, and the exit
    path is not run, so [ready] is not cleared and nothing reconnects. *)
Theorem listener_dies_on_malformed_message self env fuel n reg ws good text rest :
  _ws n = Some ws → open ws = true → _is_shutdown n = false →
  Forall (λ r, is_object r = true) good →
  is_object (Message text) = false →
  ∃ calls,
    listener EB delay self env fuel n reg good = (calls, Receiving, None) ∧
    listener EB delay self env fuel n reg (good ++ Message text :: rest)
    = (calls, Crashed, None).
Proof.
  intros Hws Ho Hs Hgood Htext.
  destruct (listener_loop_objects n ws good (Message text :: rest) Hws Ho Hs Hgood)
    as [H1 H2].
  exists (handler_calls (listener_loop n good).1). unfold listener.
  rewrite H2. rewrite H1 at 1.
  assert (listener_loop n (Message text :: rest) = ([], Crashed)) as ->.
  { simpl. rewrite Hws, Ho, Hs. simpl. by destruct text as [[]|]. }
  simpl. by rewrite app_nil_r.
Qed.

(** X18: a listener that comes to its loop test after [disconnect] reads
    nothing more and calls no handler, and its exit path neither reconnects
    nor changes the session or the registry. *)
Theorem listener_ends_after_disconnect self env fuel n reg script :
  is_Some (_ws n) →
  listener EB delay self env fuel (Session.disconnect self n reg).1
           (Session.disconnect self n reg).2 script
  = ([], Left (Session.disconnect self n reg).1,
     Some {| seen := []; final := Session.disconnect self n reg; how := Returns |}).
Proof.
  intros Hws.
  destruct (SystemMore.disconnect_keeps_socket self n reg Hws) as [ws' Hws'].
  destruct (SessionProofs.disconnect_fields self n reg) as (Hs & Hr & _).
  destruct (Session.disconnect self n reg) as [n' reg']. simpl in *.
  unfold listener. rewrite (listener_loop_test_fails n' ws') by
    (by rewrite ?Hs, ?andb_false_r).
  simpl. unfold listener_exit, _reconnect. simpl. rewrite Hs.
  rewrite <- Hr. by rewrite !set_ready_same.
Qed.

End with_backoff.

Lemma listener_dies_on_malformed_message_witness :
  ∃ calls,
    listener 0 Sample.doubling 0 Sample.combo_answers 5 Inputs.connected [(0, [])]
      [Message (Some (JDict Inputs.update_frame))]
    = (calls, Receiving, None) ∧
    listener 0 Sample.doubling 0 Sample.combo_answers 5 Inputs.connected [(0, [])]
      ([Message (Some (JDict Inputs.update_frame))]
         ++ Message (Some (JList [])) :: [Message (Some (JDict Inputs.end_frame))])
    = (calls, Crashed, None).
Proof.
  apply (listener_dies_on_malformed_message 0 Sample.doubling 0 Sample.combo_answers 5
           Inputs.connected [(0, [])] {| peer := combo_uri; open := true |}).
  - reflexivity.
  - reflexivity.
  - reflexivity.
  - repeat constructor.
  - reflexivity.
Defined.

Lemma listener_ends_after_disconnect_witness :
  listener 0 Sample.doubling 0 Sample.combo_answers 5
    (Session.disconnect 0 Inputs.connected [(0, [])]).1
    (Session.disconnect 0 Inputs.connected [(0, [])]).2
    [Message (Some (JDict Inputs.end_frame))]
  = ([], Left (Session.disconnect 0 Inputs.connected [(0, [])]).1,
     Some {| seen := []; final := Session.disconnect 0 Inputs.connected [(0, [])];
             how := Returns |}).
Proof.
  apply (listener_ends_after_disconnect 0 Sample.doubling 0 Sample.combo_answers 5
           Inputs.connected [(0, [])]).
  by eexists.
Defined.

(** X19: the handler calls that [stop] and [play] make themselves are
    never made for a frame from the wire: the dict of a wire event has a
    [type] key, the dict that [stop] and [play] pass has none. *)
Theorem synthesized_events_differ_from_wire g track n o d c :
  _handle_op o d = Called c →
  (c ∉ (Commands.stop g n).2) ∧ (c ∉ (Commands.play g track n).2).
Proof.
  intros Hc.
  assert (Inbound.op c = Enums.EVENT → is_Some (data c !! "type")) as Hty.
  { intros Hop. destruct o; unfold _handle_op in Hc.
    - destruct (Enums.call (get "type" d)) as [e|] eqn:E; [|done].
      injection Hc as <-. simpl. apply call_inv in E. unfold get in E.
      rewrite lookup_fmap. destruct (d !! "type"); [by eexists|done].
    - destruct (PlayerState_new _); [|done]. by injection Hc as <-.
    - destruct (Stats_new _ _ _ _ _); [|done]. by injection Hc as <-. }
  split; simpl; intros [->|[]%elem_of_nil]%elem_of_cons;
    destruct (Hty eq_refl) as [? [=]].
Qed.

Lemma synthesized_events_differ_from_wire_witness :
  ({| op := Enums.EVENT; arg := Event Enums.TRACK_END;
      data := Json <$> Inputs.end_frame |} ∉ (Commands.stop 7 Inputs.connected).2) ∧
  ({| op := Enums.EVENT; arg := Event Enums.TRACK_END;
      data := Json <$> Inputs.end_frame |}
     ∉ (Commands.play 7 {| track_identifier := "QAAA" |} Inputs.connected).2).
Proof.
  apply (synthesized_events_differ_from_wire 7 {| track_identifier := "QAAA" |}
           Inputs.connected Enums.EVENT Inputs.end_frame).
  reflexivity.
Defined.

End InboundProofs.
